(** * Aligned allocation in libstrongswan: [malloc_align] and [free_align]

    A shallow embedding of the two functions of
    [src/libstrongswan/utils/utils.c] that layer byte-aligned allocation
    over [malloc]/[free], together with the properties of the padding
    record they write and check; then the users of the pair in [utils.h]
    ([INIT_ALIGN], [INIT_EXTRA_ALIGN]) and the other helpers of the two
    files: the rounding of sizes, [timeval_add_ms], the two printf hooks
    for times and [closefrom].

    Layout of one aligned allocation:
<<
      backing base                      returned pointer
      |                                 |
      [ pad | pad | ...  | pad | pad ]  [ data, size bytes ]
        \------- pad bytes --------/
>>
*)

From Stdlib Require Import ZArith Ascii String List Lia Bool DecimalString.
From Stdlib Require Strings.Byte.
Import ListNotations.
Local Open Scope Z_scope.

(** ** Machine data *)

(** [u_int8_t]: values are kept as [Z] in [0, 255]; memory cells are
    [Byte.byte]. *)
Module U8.

(** Conversion of an integer value to [u_int8_t].  Converting through a
    wider unsigned type first ([uintptr_t], [size_t]; at least 16 bits)
    gives the same residue, so the composite conversion is this one. *)
Definition wrap (z : Z) : Z := z mod 256.

Definition of_byte (b : Byte.byte) : Z := Z.of_N (Byte.to_N b).

Definition to_byte (z : Z) : Byte.byte :=
  match Byte.of_N (Z.to_N (wrap z)) with
  | Some b => b
  | None => Byte.x00
  end.

End U8.

(** Addresses are integers; pointer arithmetic on [void *] (a GNU
    extension, in units of one byte) is addition and subtraction, and
    pointer comparison is comparison of addresses. *)
Definition NULL : Z := 0.

(** [sizeof(pad)], [pad] being a [u_int8_t]. *)
Definition sizeof_pad : Z := 1.

(** Byte-addressed memory. *)
Definition memory := Z -> Byte.byte.

Definition load (m : memory) (a : Z) : Z := U8.of_byte (m a).

Definition store (m : memory) (a : Z) (v : Z) : memory :=
  fun a' => if a' =? a then U8.to_byte v else m a'.

(** [memset(s, c, n)] of the C library: the [n] bytes from [s] receive
    [c] converted to [unsigned char]. *)
Definition memset (m : memory) (s : Z) (c : Z) (n : Z) : memory :=
  fun a => if (s <=? a) && (a <? s + n) then U8.to_byte c else m a.

(** ** Calls that leave the two functions *)

(** Modelled from the spec: the [DBG1] macro and the debug group [DBG_LIB]
    come from [utils/debug.h], which is not part of the sources at hand;
    per the specification the macro emits one human-readable diagnostic
    message on a logging side channel.  Only the group used here is
    listed. *)
Inductive debug_t := DBG_LIB.

Inductive event :=
| EvMalloc (n : Z) (ret : Z)
| EvFree (p : Z)
| EvDbg (group : debug_t) (level : Z) (msg : string).

Record state := mkState {
  mem : memory;
  trace : list event
}.

Definition emit (e : event) (s : state) : state :=
  {| mem := mem s; trace := trace s ++ [e] |}.

Definition free (p : Z) (s : state) : state := emit (EvFree p) s.

Definition DBG1 (group : debug_t) (msg : string) (s : state) : state :=
  emit (EvDbg group 1 msg) s.

(** Backing allocations outstanding after a sequence of calls. *)
Fixpoint remove_first (p : Z) (l : list Z) : list Z :=
  match l with
  | [] => []
  | q :: l' => if q =? p then l' else q :: remove_first p l'
  end.

Definition apply_event (live : list Z) (e : event) : list Z :=
  match e with
  | EvMalloc _ p => if p =? NULL then live else p :: live
  | EvFree p => remove_first p live
  | EvDbg _ _ _ => live
  end.

Definition outstanding (tr : list event) : list Z :=
  fold_left apply_event tr [].

(** Calls of the backing [free] in a trace. *)
Definition is_free (e : event) : bool :=
  match e with EvFree _ => true | _ => false end.

Definition is_dbg (e : event) : bool :=
  match e with EvDbg _ _ _ => true | _ => false end.

Definition releases (tr : list event) : list event := filter is_free tr.
Definition diagnostics (tr : list event) : list event := filter is_dbg tr.

(** ** The two functions *)

Inductive verdict := Verified | Corrupted.

(** The [for] loop of [free_align]: [pos] walks down from [ptr - 1] while
    [pos >= ptr - pad]; the result carries the addresses whose byte was
    compared with [pad], in the order visited.  [None]: out of fuel. *)
Fixpoint verify_padding (fuel : nat) (m : memory) (ptr pad pos : Z)
  : option (verdict * list Z) :=
  match fuel with
  | O => None
  | S fuel' =>
      if ptr - pad <=? pos then
        if load m pos =? pad then
          match verify_padding fuel' m ptr pad (pos - 1) with
          | Some (v, visited) => Some (v, pos :: visited)
          | None => None
          end
        else Some (Corrupted, [pos])
      else Some (Verified, [])
  end.

Definition invalid_free_align : string := "!!!! invalid free_align() !!!!".

Definition free_align (fuel : nat) (ptr : Z) (s : state) : option state :=
  let pos := ptr - 1 in
  let pad := load (mem s) pos in
  match verify_padding fuel (mem s) ptr pad pos with
  | None => None
  | Some (Corrupted, _) => Some (DBG1 DBG_LIB invalid_free_align s)
  | Some (Verified, _) => Some (free (ptr - pad) s)
  end.

Section Allocate.

(** Width of [size_t] in bits. *)
Variable size_bits : Z.

(** The backing [malloc]: the address it returns for a request of [n]
    bytes in state [s], [NULL] on failure. *)
Variable backing : state -> Z -> Z.

(** Arithmetic in [size_t] wraps. *)
Definition size_wrap (z : Z) : Z := z mod 2 ^ size_bits.

Definition malloc (n : Z) (s : state) : Z * state :=
  let p := backing s n in (p, emit (EvMalloc n p) s).

Definition malloc_align (size align : Z) (s : state) : Z * state :=
  let align := if align =? 0 then 1 else align in
  let (ptr, s1) := malloc (size_wrap (align + sizeof_pad + size)) s in
  if ptr =? NULL then (NULL, s1)
  else
    let pad := U8.wrap (align - ptr mod align) in
    let s2 := {| mem := memset (mem s1) ptr pad pad; trace := trace s1 |} in
    (ptr + pad, s2).

(** The request [malloc_align] passes to the backing allocator. *)
Definition request (size align : Z) : Z :=
  size_wrap ((if align =? 0 then 1 else align) + sizeof_pad + size).

End Allocate.

(** Overwriting one byte of an allocation from outside. *)
Definition poke (a v : Z) (s : state) : state :=
  {| mem := store (mem s) a v; trace := trace s |}.

(** A backing allocator double that hands out one fixed address. *)
Definition fixed_backing (base : Z) : state -> Z -> Z := fun _ _ => base.

Definition zeroed : state := {| mem := fun _ => Byte.x00; trace := [] |}.

(** The addresses [pos], [pos - 1], ..., [n] of them. *)
Fixpoint down_from (pos : Z) (n : nat) : list Z :=
  match n with
  | O => []
  | S n' => pos :: down_from (pos - 1) n'
  end.

(** Bytes from [ptr - pad] up to [pos] that the loop still has to visit. *)
Definition remaining (ptr pad pos : Z) : nat := Z.to_nat (pos - (ptr - pad) + 1).

(** ** Users of [malloc_align]: the object initialisation macros *)

(** The alignment [malloc_align] works with, a zero replaced by one. *)
Definition effective_align (align : Z) : Z := if align =? 0 then 1 else align.

(** Storing a byte image, lowest address first. *)
Fixpoint store_bytes (m : memory) (p : Z) (bs : list Z) : memory :=
  match bs with
  | [] => m
  | b :: bs' => store_bytes (store m p b) (p + 1) bs'
  end.

Section Init.

Variable size_bits : Z.
Variable backing : state -> Z -> Z.

(** [INIT_ALIGN(this, align, ...)]: [obj] is the byte image of the
    initialiser, [sizeof( *this )] bytes long; [align], an integer
    expression, is converted to the [u_int8_t] parameter of [malloc_align].
    The macro assigns through the pointer without a test for [NULL]:
    [None] stands for that undefined store. *)
Definition INIT_ALIGN (obj : list Z) (align : Z) (s : state)
  : option (Z * state) :=
  let sizeof_this := Z.of_nat (length obj) in
  let (this, s1) :=
    malloc_align size_bits backing sizeof_this (U8.wrap align) s in
  if this =? NULL then None
  else Some (this, {| mem := store_bytes (mem s1) this obj;
                      trace := trace s1 |}).

(** [INIT_EXTRA_ALIGN(this, extra, align, ...)]: as before, with [extra]
    bytes behind the object, which are zeroed.  [_extra] keeps the type of
    [extra]; it is converted to [size_t] both in the sum with [sizeof] and
    as the length given to [memset]. *)
Definition INIT_EXTRA_ALIGN (obj : list Z) (extra align : Z) (s : state)
  : option (Z * state) :=
  let sizeof_this := Z.of_nat (length obj) in
  let _extra := extra in
  let (this, s1) :=
    malloc_align size_bits backing
                 (size_wrap size_bits (sizeof_this + _extra))
                 (U8.wrap align) s in
  if this =? NULL then None
  else
    let m1 := store_bytes (mem s1) this obj in
    let m2 :=
      memset m1 (this + sizeof_this) 0 (size_wrap size_bits _extra) in
    Some (this, {| mem := m2; trace := trace s1 |}).

End Init.

(** ** Rounding of sizes ([utils.h]) *)

Section Rounding.

Variable size_bits : Z.

(** [pad_len]: the padding that makes [size] a multiple of [alignment].
    Both are [size_t]; [size % 0] is undefined, hence [None]. *)
Definition pad_len (size alignment : Z) : option Z :=
  if alignment =? 0 then None
  else
    let remainder := size mod alignment in
    Some (if remainder =? 0 then 0
          else size_wrap size_bits (alignment - remainder)).

Definition round_up (size alignment : Z) : option Z :=
  match pad_len size alignment with
  | Some pad => Some (size_wrap size_bits (size + pad))
  | None => None
  end.

Definition round_down (size alignment : Z) : option Z :=
  if alignment =? 0 then None
  else Some (size_wrap size_bits (size - size mod alignment)).

End Rounding.

(** ** Time values ([utils.h], [utils.c])

    Data model of this part: LP64.  [u_int] and [int] have 32 bits;
    [time_t], [suseconds_t], [long] and [long long] are signed and have
    64 bits; [u_int64_t] has 64 bits.  Signed overflow is undefined. *)

Definition UINT_BITS : Z := 32.
Definition INT_MAX : Z := 2 ^ 31 - 1.
Definition LONG_MIN : Z := - 2 ^ 63.
Definition LONG_MAX : Z := 2 ^ 63 - 1.

Definition in_long (z : Z) : bool := (LONG_MIN <=? z) && (z <=? LONG_MAX).

(** How a run ends: with a value, in undefined behaviour, or with the
    fuel of the model used up. *)
Inductive result (A : Type) :=
| Ok (a : A)
| Undefined
| OutOfFuel.

Arguments Ok {A} a.
Arguments Undefined {A}.
Arguments OutOfFuel {A}.

Record timeval_t := mkTimeval {
  tv_sec : Z;
  tv_usec : Z
}.

(** The time a [timeval_t] stands for, in microseconds. *)
Definition micros (tv : timeval_t) : Z := tv_sec tv * 1000000 + tv_usec tv.

(** The [while] loop of [timeval_add_ms]. *)
Fixpoint timeval_carry (fuel : nat) (tv : timeval_t) : result timeval_t :=
  match fuel with
  | O => OutOfFuel
  | S fuel' =>
      if 1000000 <=? tv_usec tv then
        let usec := tv_usec tv - 1000000 in
        if in_long (tv_sec tv + 1) then
          timeval_carry fuel' {| tv_sec := tv_sec tv + 1; tv_usec := usec |}
        else Undefined
      else Ok tv
  end.

(** [timeval_add_ms]: [ms * 1000] is a product in [u_int] and wraps. *)
Definition timeval_add_ms (fuel : nat) (tv : timeval_t) (ms : Z)
  : result timeval_t :=
  let usec := tv_usec tv + (ms * 1000) mod 2 ^ UINT_BITS in
  if in_long usec then
    timeval_carry fuel {| tv_sec := tv_sec tv; tv_usec := usec |}
  else Undefined.

(** ** The printf hooks for times ([utils.c]) *)

(** Unsigned decimal, as [printf] writes it. *)
Definition decimal (n : Z) : string :=
  NilZero.string_of_uint (N.to_uint (Z.to_N n)).

Fixpoint zeros (n : nat) : string :=
  match n with
  | O => EmptyString
  | S n' => String "0"%char (zeros n')
  end.

(** [printf] with ["%0<w>d"]: the sign counts for the width. *)
Definition fmt_0d (w : nat) (n : Z) : string :=
  if n <? 0 then
    String "-"%char
           (zeros (w - 1 - String.length (decimal (- n))) ++ decimal (- n))
  else (zeros (w - String.length (decimal n)) ++ decimal n)%string.

(** [llabs] is undefined on the least [long long]. *)
Definition llabs (z : Z) : result Z :=
  if z =? LONG_MIN then Undefined else Ok (Z.abs z).

(** What [time_delta_printf_hook] hands to [print_in_hook] for the
    conversions ["%" PRIu64 " %s%s"]: the number, the unit and the plural
    ending. *)
Definition time_delta_args (arg1 arg2 : Z) : result (Z * string * string) :=
  if in_long (arg1 - arg2) then
    match llabs (arg1 - arg2) with
    | Ok d =>
        let delta := d mod 2 ^ 64 in
        let '(delta, unit) :=
          if 2 * 60 * 60 * 24 <? delta
          then (delta / (60 * 60 * 24), "day"%string)
          else if 2 * 60 * 60 <? delta then (delta / (60 * 60), "hour"%string)
          else if 2 * 60 <? delta then (delta / 60, "minute"%string)
          else (delta, "second"%string) in
        Ok (delta, unit, if delta =? 1 then ""%string else "s"%string)
    | Undefined => Undefined
    | OutOfFuel => OutOfFuel
    end
  else Undefined.

(** Modelled from the spec: [print_in_hook] of [utils/printf_hook] is not
    part of the sources at hand; per the specification the hooks render
    their argument as human text, so the hook is modelled by the text its
    format string and arguments produce under the rules of [printf]. *)
Definition time_delta_printf_hook (arg1 arg2 : Z) : result string :=
  match time_delta_args arg1 arg2 with
  | Ok (delta, unit, ending) =>
      Ok (decimal delta ++ " " ++ unit ++ ending)%string
  | Undefined => Undefined
  | OutOfFuel => OutOfFuel
  end.

(** Seconds in the units [time_delta_printf_hook] names. *)
Definition unit_seconds (unit : string) : Z :=
  if String.eqb unit "day" then 60 * 60 * 24
  else if String.eqb unit "hour" then 60 * 60
  else if String.eqb unit "minute" then 60
  else 1.

(** The fields of [struct tm] the hook reads. *)
Record tm := mkTm {
  tm_sec : Z;
  tm_min : Z;
  tm_hour : Z;
  tm_mday : Z;
  tm_mon : Z;
  tm_year : Z
}.

Definition UNDEFINED_TIME : Z := 0.

Definition months : list string :=
  ["Jan"; "Feb"; "Mar"; "Apr"; "May"; "Jun";
   "Jul"; "Aug"; "Sep"; "Oct"; "Nov"; "Dec"]%string.

Section TimeHook.

(** [gmtime_r] and [localtime_r]: [None] when they return [NULL]. *)
Variable gmtime_r : Z -> option tm.
Variable localtime_r : Z -> option tm.

(** [time_printf_hook] on the time [*time] and the flag [utc], read as an
    [int]; the text is that of the [print_in_hook] call (see
    [time_delta_printf_hook]).  Indexing [months] outside the array and
    overflow of [tm_year + 1900] are undefined. *)
Definition time_printf_hook (time : Z) (utc_arg : Z) : result string :=
  let utc := negb (utc_arg =? 0) in
  let ret :=
    if negb (time =? UNDEFINED_TIME) then
      if utc then gmtime_r time else localtime_r time
    else None in
  match ret with
  | None =>
      Ok ("--- -- --:--:--" ++ (if utc then " UTC " else " ") ++ "----")%string
  | Some t =>
      if (0 <=? tm_mon t) && (tm_mon t <? 12) && (tm_year t + 1900 <=? INT_MAX)
      then
        Ok (nth (Z.to_nat (tm_mon t)) months ""%string ++ " " ++
            fmt_0d 2 (tm_mday t) ++ " " ++
            fmt_0d 2 (tm_hour t) ++ ":" ++
            fmt_0d 2 (tm_min t) ++ ":" ++
            fmt_0d 2 (tm_sec t) ++
            (if utc then " UTC " else " ") ++
            fmt_0d 4 (tm_year t + 1900))%string
      else Undefined
  end.

End TimeHook.

(** ** Closing file descriptors ([utils.c]) *)

(** The fallback loop of [closefrom]: the descriptors passed to [close],
    in order. *)
Fixpoint closefrom_loop (fuel : nat) (fd maxfd : Z) : option (list Z) :=
  match fuel with
  | O => None
  | S fuel' =>
      if fd <? maxfd then
        match closefrom_loop fuel' (fd + 1) maxfd with
        | Some closed => Some (fd :: closed)
        | None => None
        end
      else Some []
  end.

(** The enumeration loop of [closefrom] over the names a directory
    enumerator yields. *)
Fixpoint closefrom_entries (atoi : string -> Z) (lowfd : Z)
         (entries : list string) : list Z :=
  match entries with
  | [] => []
  | rel :: rest =>
      let fd := atoi rel in
      if lowfd <=? fd then fd :: closefrom_entries atoi lowfd rest
      else closefrom_entries atoi lowfd rest
  end.

Section Closefrom.

(** The environment of one call: [PATH_MAX]; [atoi]; the value of
    [snprintf]; whether [access] returned 0; the names
    [enumerator_create_directory] yields, [None] when it returns [NULL];
    [sysconf(_SC_OPEN_MAX)] as an [int]. *)
Variable PATH_MAX : Z.
Variable atoi : string -> Z.
Variable len : Z.
Variable access_ok : bool.
Variable enumerator : option (list string).
Variable open_max : Z.

(** [closefrom]: the descriptors passed to [close], in order; [None] when
    the fuel of the fallback loop runs out. *)
Definition closefrom (fuel : nat) (lowfd : Z) : option (list Z) :=
  let fallback :=
    let maxfd := if open_max <? 0 then 256 else open_max in
    closefrom_loop fuel lowfd maxfd in
  if (0 <? len) && (len <? PATH_MAX) && access_ok then
    match enumerator with
    | Some entries => Some (closefrom_entries atoi lowfd entries)
    | None => fallback
    end
  else fallback.

End Closefrom.

(** Fields of a [struct tm] within the ranges of the calendar, years 0 to
    9999. *)
Definition calendar (t : tm) : bool :=
  (0 <=? tm_sec t) && (tm_sec t <=? 60) &&
  (0 <=? tm_min t) && (tm_min t <=? 59) &&
  (0 <=? tm_hour t) && (tm_hour t <=? 23) &&
  (1 <=? tm_mday t) && (tm_mday t <=? 31) &&
  (0 <=? tm_mon t) && (tm_mon t <=? 11) &&
  (-1900 <=? tm_year t) && (tm_year t <=? 8099).

(** The descriptors [fd], [fd + 1], ..., [n] of them. *)
Fixpoint count_up (fd : Z) (n : nat) : list Z :=
  match n with
  | O => []
  | S n' => fd :: count_up (fd + 1) n'
  end.

(** A backing allocator double that hands out blocks 64 bytes apart. *)
Definition bump_backing : state -> Z -> Z :=
  fun s _ => 4096 + 64 * Z.of_nat (length (trace s)).

Ltac loop_test H :=
  match goal with
  | |- context [?a <=? ?b] =>
      destruct (Z.leb_spec a b) as [H|H]
  end.

Ltac byte_test H :=
  match goal with
  | |- context [?a =? ?b] =>
      destruct (Z.eqb_spec a b) as [H|H]
  end.

(** Closed side conditions over the definitions are settled by
    evaluation. *)
Ltac by_evaluation :=
  vm_compute; repeat split;
  solve [ reflexivity | discriminate | intro; discriminate
        | let H := fresh in intro H; apply H; reflexivity ].

(** ** Bytes *)

Lemma of_byte_range (b : Byte.byte) : 0 <= U8.of_byte b <= 255.
Proof.
  unfold U8.of_byte. pose proof (Byte.to_N_bounded b). lia.
Qed.

Lemma of_to_byte (z : Z) : 0 <= z <= 255 -> U8.of_byte (U8.to_byte z) = z.
Proof.
  intros Hz. unfold U8.of_byte, U8.to_byte, U8.wrap.
  rewrite Z.mod_small by lia.
  destruct (Byte.of_N (Z.to_N z)) as [b|] eqn:E.
  - apply Byte.to_of_N in E. rewrite E. lia.
  - apply Byte.of_N_None_iff in E. lia.
Qed.

Lemma load_range (m : memory) (a : Z) : 0 <= load m a <= 255.
Proof. apply of_byte_range. Qed.

Lemma load_memset_in (m : memory) (s c n a : Z) :
  0 <= c <= 255 -> s <= a < s + n -> load (memset m s c n) a = c.
Proof.
  intros Hc Ha. unfold load, memset.
  replace ((s <=? a) && (a <? s + n)) with true
    by (symmetry; apply andb_true_iff; split; [apply Z.leb_le|apply Z.ltb_lt]; lia).
  now apply of_to_byte.
Qed.

Lemma memset_out (m : memory) (s c n a : Z) :
  ~ (s <= a < s + n) -> memset m s c n a = m a.
Proof.
  intros Ha. unfold memset.
  destruct (s <=? a) eqn:E1; destruct (a <? s + n) eqn:E2; simpl; auto.
  apply Z.leb_le in E1. apply Z.ltb_lt in E2. lia.
Qed.

Lemma load_store_same (m : memory) (a v : Z) :
  0 <= v <= 255 -> load (store m a v) a = v.
Proof.
  intros Hv. unfold load, store. rewrite Z.eqb_refl. now apply of_to_byte.
Qed.

Lemma load_store_other (m : memory) (a v a' : Z) :
  a' <> a -> load (store m a v) a' = load m a'.
Proof.
  intros Hne. unfold load, store.
  destruct (a' =? a) eqn:E; [apply Z.eqb_eq in E; contradiction|reflexivity].
Qed.

(** ** The verification loop *)

Lemma down_from_length (pos : Z) (n : nat) : length (down_from pos n) = n.
Proof. revert pos. induction n; intros; simpl; auto. Qed.

Lemma remaining_step (ptr pad pos : Z) :
  ptr - pad <= pos -> remaining ptr pad pos = S (remaining ptr pad (pos - 1)).
Proof. unfold remaining. intros. lia. Qed.

Lemma remaining_done (ptr pad pos : Z) :
  ~ (ptr - pad <= pos) -> remaining ptr pad pos = O.
Proof. unfold remaining. intros. lia. Qed.

(** With more fuel than bytes left, the loop returns, and it has compared
    no more bytes than were left. *)
Lemma verify_padding_returns (fuel : nat) (m : memory) (ptr pad pos : Z) :
  (remaining ptr pad pos < fuel)%nat ->
  exists v visited,
    verify_padding fuel m ptr pad pos = Some (v, visited) /\
    (length visited <= remaining ptr pad pos)%nat.
Proof.
  revert pos. induction fuel as [|fuel IH]; intros pos Hfuel; [lia|].
  simpl. loop_test Hin.
  - rewrite (remaining_step _ _ _ Hin) in *.
    byte_test Heq.
    + destruct (IH (pos - 1)) as (v & vs & -> & Hlen); [lia|].
      exists v, (pos :: vs). split; [reflexivity|simpl; lia].
    + exists Corrupted, [pos]. split; [reflexivity|simpl; lia].
  - exists Verified, []. split; [reflexivity|simpl; lia].
Qed.

(** Every byte left holds [pad]: the loop visits them all and accepts. *)
Lemma verify_padding_clean (fuel : nat) (m : memory) (ptr pad pos : Z) :
  (remaining ptr pad pos < fuel)%nat ->
  (forall a, ptr - pad <= a <= pos -> load m a = pad) ->
  verify_padding fuel m ptr pad pos =
    Some (Verified, down_from pos (remaining ptr pad pos)).
Proof.
  revert pos. induction fuel as [|fuel IH]; intros pos Hfuel Hall; [lia|].
  simpl. loop_test Hin.
  - rewrite (remaining_step _ _ _ Hin) in *.
    rewrite (Hall pos) by lia. rewrite Z.eqb_refl.
    rewrite IH; [reflexivity|lia|]. intros a Ha. apply Hall. lia.
  - rewrite remaining_done by lia. reflexivity.
Qed.

(** Some byte left differs from [pad]: the loop stops at the first such
    byte on its way down and rejects. *)
Lemma verify_padding_dirty (fuel : nat) (m : memory) (ptr pad pos q : Z) :
  (remaining ptr pad pos < fuel)%nat ->
  ptr - pad <= q <= pos -> load m q <> pad ->
  exists visited,
    verify_padding fuel m ptr pad pos = Some (Corrupted, visited).
Proof.
  revert pos. induction fuel as [|fuel IH]; intros pos Hfuel Hq Hne; [lia|].
  simpl. loop_test Hin; [|lia].
  rewrite (remaining_step _ _ _ Hin) in *.
  byte_test Heq.
  - assert (q <> pos) by congruence.
    destruct (IH (pos - 1)) as (vs & ->); [lia|lia|assumption|].
    eexists. reflexivity.
  - eexists. reflexivity.
Qed.

(** A rejection always stops on a byte that differs from [pad], inside
    the range the loop walks. *)
Lemma verify_padding_rejects (fuel : nat) (m : memory) (ptr pad pos : Z)
      (visited : list Z) :
  verify_padding fuel m ptr pad pos = Some (Corrupted, visited) ->
  exists q, ptr - pad <= q <= pos /\ load m q <> pad.
Proof.
  revert pos visited.
  induction fuel as [|fuel IH]; intros pos visited; simpl; [discriminate|].
  loop_test Hin; [|discriminate].
  byte_test Heq.
  - destruct (verify_padding fuel m ptr pad (pos - 1)) as [[v vs]|] eqn:E;
      [|discriminate].
    intros H. injection H as -> _.
    destruct (IH _ _ E) as (q & Hq & Hne). exists q. split; [lia|assumption].
  - intros _. exists pos. split; [lia|assumption].
Qed.

(** A rejection has compared at least the byte it stops on. *)
Lemma verify_padding_stops_on_byte (fuel : nat) (m : memory) (ptr pad pos : Z) :
  verify_padding fuel m ptr pad pos <> Some (Corrupted, []).
Proof.
  destruct fuel as [|fuel]; simpl; [discriminate|].
  loop_test Hin; [|discriminate].
  byte_test Heq; [|discriminate].
  destruct (verify_padding fuel m ptr pad (pos - 1)) as [[v vs]|]; discriminate.
Qed.

Lemma remaining_start (ptr pad : Z) :
  0 <= pad -> remaining ptr pad (ptr - 1) = Z.to_nat pad.
Proof. unfold remaining. intros. f_equal. lia. Qed.

(** ** Release: the two outcomes *)

Lemma free_align_clean (fuel : nat) (ptr : Z) (s : state) :
  (255 < fuel)%nat ->
  (forall a, ptr - load (mem s) (ptr - 1) <= a <= ptr - 1 ->
             load (mem s) a = load (mem s) (ptr - 1)) ->
  free_align fuel ptr s = Some (free (ptr - load (mem s) (ptr - 1)) s).
Proof.
  intros Hfuel Hall. unfold free_align.
  pose proof (load_range (mem s) (ptr - 1)) as Hpad.
  rewrite verify_padding_clean; [reflexivity| |assumption].
  rewrite remaining_start by lia. lia.
Qed.

Lemma free_align_dirty (fuel : nat) (ptr q : Z) (s : state) :
  (255 < fuel)%nat ->
  ptr - load (mem s) (ptr - 1) <= q <= ptr - 1 ->
  load (mem s) q <> load (mem s) (ptr - 1) ->
  free_align fuel ptr s = Some (DBG1 DBG_LIB invalid_free_align s).
Proof.
  intros Hfuel Hq Hne. unfold free_align.
  pose proof (load_range (mem s) (ptr - 1)) as Hpad.
  destruct (verify_padding_dirty fuel (mem s) ptr (load (mem s) (ptr - 1))
              (ptr - 1) q) as (vs & ->); auto.
  rewrite remaining_start by lia. lia.
Qed.

Lemma outstanding_app (tr tr' : list event) :
  outstanding (tr ++ tr') = fold_left apply_event tr' (outstanding tr).
Proof. unfold outstanding. apply fold_left_app. Qed.

Lemma remove_first_head (p : Z) (l : list Z) : remove_first p (p :: l) = l.
Proof. simpl. now rewrite Z.eqb_refl. Qed.

(** ** Allocation *)

Section AllocateFacts.

Variable size_bits : Z.
Variable backing : state -> Z -> Z.

(** The padding length fits a [u_int8_t] and is never zero. *)
Lemma pad_range (align base : Z) :
  1 <= align <= 255 ->
  U8.wrap (align - base mod align) = align - base mod align /\
  1 <= align - base mod align <= align.
Proof.
  intros Ha. pose proof (Z.mod_pos_bound base align ltac:(lia)).
  unfold U8.wrap. rewrite Z.mod_small by lia. lia.
Qed.

Lemma malloc_align_failure (size align : Z) (s : state) :
  backing s (request size_bits size align) = NULL ->
  malloc_align size_bits backing size align s =
    (NULL, emit (EvMalloc (request size_bits size align) NULL) s).
Proof.
  intros Hnull. unfold malloc_align, malloc, request in *.
  rewrite Hnull. reflexivity.
Qed.

Lemma malloc_align_success (size align : Z) (s : state) :
  0 <= align <= 255 ->
  let a := if align =? 0 then 1 else align in
  let n := request size_bits size align in
  let base := backing s n in
  let pad := a - base mod a in
  base <> NULL ->
  malloc_align size_bits backing size align s =
    (base + pad,
     {| mem := memset (mem s) base pad pad;
        trace := trace s ++ [EvMalloc n base] |}).
Proof.
  intros Ha a n base pad Hbase.
  unfold malloc_align, malloc. fold a.
  change (size_wrap size_bits (a + sizeof_pad + size)) with n. fold base.
  destruct (Z.eqb_spec base NULL) as [E|_]; [contradiction|].
  assert (1 <= a <= 255) as Ha'.
  { subst a. destruct (Z.eqb_spec align 0); lia. }
  destruct (pad_range a base Ha') as [-> _]. reflexivity.
Qed.

(** The returned pointer is a multiple of the alignment. *)
Lemma malloc_align_aligned (size align : Z) (s : state) :
  1 <= align <= 255 ->
  backing s (request size_bits size align) <> NULL ->
  fst (malloc_align size_bits backing size align s) mod align = 0.
Proof.
  intros Ha Hbase.
  rewrite (malloc_align_success size align s) by (lia || assumption).
  destruct (Z.eqb_spec align 0); [lia|]. simpl.
  set (base := backing s (request size_bits size align)).
  rewrite (Z.div_mod base align) at 1 by lia.
  replace (align * (base / align) + base mod align + (align - base mod align))
    with ((base / align + 1) * align) by lia.
  apply Z.mod_mul. lia.
Qed.

(** As long as the request does not wrap in [size_t], [size] bytes of the
    backing allocation follow the returned pointer. *)
Lemma malloc_align_room (size align : Z) (s : state) :
  1 <= align <= 255 -> 0 <= size ->
  align + sizeof_pad + size < 2 ^ size_bits ->
  backing s (request size_bits size align) <> NULL ->
  fst (malloc_align size_bits backing size align s) + size
    < backing s (request size_bits size align) + request size_bits size align.
Proof.
  intros Ha Hs Hfit Hbase.
  rewrite (malloc_align_success size align s) by (lia || assumption).
  unfold request, size_wrap, sizeof_pad in *.
  destruct (Z.eqb_spec align 0); [lia|]. simpl.
  rewrite Z.mod_small by lia.
  pose proof (Z.mod_pos_bound
                (backing s ((align + 1 + size) mod 2 ^ size_bits)) align
                ltac:(lia)).
  rewrite (Z.mod_small (align + 1 + size)) in * by lia. lia.
Qed.

Lemma request_nonzero (size align : Z) :
  align <> 0 ->
  request size_bits size align = size_wrap size_bits (align + sizeof_pad + size).
Proof.
  intros Hne. unfold request. now destruct (Z.eqb_spec align 0).
Qed.

(** The padding region of a fresh allocation: every byte from the backing
    base up to the returned pointer holds the distance between the two. *)
Lemma malloc_align_padding (size align : Z) (s : state) :
  0 <= align <= 255 ->
  backing s (request size_bits size align) <> NULL ->
  let base := backing s (request size_bits size align) in
  let p := fst (malloc_align size_bits backing size align s) in
  let s1 := snd (malloc_align size_bits backing size align s) in
  1 <= p - base <= 255 /\
  (forall a, base <= a < p -> load (mem s1) a = p - base) /\
  trace s1 = trace s ++ [EvMalloc (request size_bits size align) base].
Proof.
  intros Ha Hbase base p s1. subst p s1.
  rewrite (malloc_align_success size align s) by assumption.
  fold base. simpl.
  set (a := if align =? 0 then 1 else align).
  assert (1 <= a <= 255) as Ha' by (subst a; destruct (Z.eqb_spec align 0); lia).
  destruct (pad_range a base Ha') as [_ Hpad].
  split; [lia|]. split; [|reflexivity].
  intros x Hx. replace (base + (a - base mod a) - base) with (a - base mod a) by lia.
  apply load_memset_in; lia.
Qed.

(** C2: for every size and every align >= 1, on a successful backing
    allocation at [base], malloc_align computes
    [pad = align - base mod align], which lies in [1, align] (and equals
    align when [base] is already aligned), stores the value [pad] in each
    of the [pad] bytes from [base] on (and nowhere else), and returns
    [base + pad]. *)
Theorem malloc_align_writes_pad (size align : Z) (s : state) :
  1 <= align <= 255 ->
  let base := backing s (size_wrap size_bits (align + sizeof_pad + size)) in
  let pad := align - base mod align in
  let r := malloc_align size_bits backing size align s in
  base <> NULL ->
  1 <= pad <= align /\
  (base mod align = 0 -> pad = align) /\
  fst r = base + pad /\
  (forall a, base <= a < base + pad -> load (mem (snd r)) a = pad) /\
  (forall a, ~ (base <= a < base + pad) -> mem (snd r) a = mem s a).
Proof.
  intros Ha base pad r Hbase. subst r.
  assert (align <> 0) as Hnz by lia.
  pose proof (request_nonzero size align Hnz) as Hreq.
  rewrite (malloc_align_success size align s) by (rewrite ?Hreq; lia || assumption).
  rewrite Hreq. fold base.
  destruct (Z.eqb_spec align 0) as [|_]; [contradiction|]. fold pad. simpl.
  destruct (pad_range align base Ha) as [_ Hpad]. fold pad in Hpad.
  repeat split; try lia.
  - intros a Hin. apply load_memset_in; lia.
  - intros a Hout. now apply memset_out.
Qed.

(** C3: releasing the pointer of a successful malloc_align, with memory
    untouched in between, reports no corruption and calls the backing
    release exactly once, on the very address the backing allocator had
    returned; nothing stays outstanding and nothing is released twice. *)
Theorem malloc_free_align_roundtrip (fuel : nat) (size align : Z) (s : state) :
  0 <= align <= 255 -> (255 < fuel)%nat ->
  let n := request size_bits size align in
  let base := backing s n in
  let p := fst (malloc_align size_bits backing size align s) in
  let s1 := snd (malloc_align size_bits backing size align s) in
  base <> NULL ->
  exists s2,
    free_align fuel p s1 = Some s2 /\
    mem s2 = mem s1 /\
    trace s2 = trace s ++ [EvMalloc n base; EvFree base] /\
    diagnostics (trace s2) = diagnostics (trace s) /\
    releases (trace s2) = releases (trace s) ++ [EvFree base] /\
    outstanding (trace s2) = outstanding (trace s).
Proof.
  intros Ha Hfuel n base p s1 Hbase.
  destruct (malloc_align_padding size align s Ha Hbase) as (Hpad & Hfill & Htr).
  fold base p s1 n in Hpad, Hfill, Htr.
  assert (load (mem s1) (p - 1) = p - base) as Hlast by (apply Hfill; lia).
  exists (free base s1).
  assert (trace (free base s1) = trace s ++ [EvMalloc n base; EvFree base]) as Htr'.
  { unfold free, emit. simpl. rewrite Htr, <- app_assoc. reflexivity. }
  split; [|split; [reflexivity|split; [exact Htr'|]]].
  - rewrite free_align_clean; [|assumption|].
    + rewrite Hlast. do 2 f_equal. lia.
    + rewrite Hlast. intros a Hin. apply Hfill. lia.
  - rewrite Htr'. unfold diagnostics, releases.
    rewrite !filter_app, outstanding_app. simpl.
    destruct (Z.eqb_spec base NULL); [contradiction|].
    rewrite remove_first_head, app_nil_r. auto.
Qed.

(** C4, amended: after a successful malloc_align with [pad] padding
    bytes, overwriting one byte of the padding with a value other than
    [pad] is detected by free_align, which then calls no backing release,
    provided the byte is not the last one before the pointer, or else
    the new value is at least 2 and [pad] is at least 2. *)
Theorem free_align_detects_overwrite
        (fuel : nat) (size align : Z) (s : state) (q v : Z) :
  0 <= align <= 255 -> (255 < fuel)%nat ->
  let base := backing s (request size_bits size align) in
  let p := fst (malloc_align size_bits backing size align s) in
  let s1 := snd (malloc_align size_bits backing size align s) in
  let pad := p - base in
  base <> NULL ->
  p - pad <= q <= p - 1 ->
  0 <= v <= 255 -> v <> pad ->
  q <= p - 2 \/ (2 <= v /\ 2 <= pad) ->
  free_align fuel p (poke q v s1) =
    Some (DBG1 DBG_LIB invalid_free_align (poke q v s1)) /\
  releases (trace (DBG1 DBG_LIB invalid_free_align (poke q v s1))) =
    releases (trace s1).
Proof.
  intros Ha Hfuel base p s1 pad Hbase Hq Hv Hne Hwhere.
  destruct (malloc_align_padding size align s Ha Hbase) as (Hpad & Hfill & _).
  fold base p s1 in Hpad, Hfill. fold pad in Hpad, Hfill.
  split.
  - destruct (Z.eq_dec q (p - 1)) as [Hlast|Hinner].
    + (* the length byte itself was overwritten *)
      assert (2 <= v /\ 2 <= pad) as [Hv2 Hp2] by lia.
      apply (free_align_dirty fuel p (p - 2)); [assumption| |]; simpl;
        subst q; rewrite load_store_same by lia.
      * lia.
      * rewrite load_store_other by lia. rewrite Hfill by lia. lia.
    + apply (free_align_dirty fuel p q); [assumption| |]; simpl;
        rewrite (load_store_other _ q v (p - 1)) by lia;
        rewrite (Hfill (p - 1)) by lia.
      * lia.
      * rewrite load_store_same by lia. assumption.
  - unfold DBG1, emit, releases. simpl. rewrite filter_app. simpl.
    now rewrite app_nil_r.
Qed.

(** C8: for every size, malloc_align with align 0 is malloc_align with
    align 1: the same request, the same padding, the same pointer and the
    same resulting state for the same backing allocator. *)
Theorem malloc_align_zero_is_one (size : Z) (s : state) :
  malloc_align size_bits backing size 0 s = malloc_align size_bits backing size 1 s /\
  request size_bits size 0 = request size_bits size 1.
Proof. split; reflexivity. Qed.

End AllocateFacts.

(** ** Release *)

(** C5: when the byte before the pointer holds 0, the loop condition is
    false at once and no byte is compared, no corruption is reported, and
    the backing release is called on the pointer itself. *)
Theorem free_align_pad_zero (fuel : nat) (ptr : Z) (s : state) :
  (0 < fuel)%nat ->
  load (mem s) (ptr - 1) = 0 ->
  verify_padding fuel (mem s) ptr 0 (ptr - 1) = Some (Verified, []) /\
  free_align fuel ptr s = Some (free ptr s) /\
  trace (free ptr s) = trace s ++ [EvFree ptr] /\
  diagnostics (trace (free ptr s)) = diagnostics (trace s).
Proof.
  intros Hfuel Hzero.
  assert (verify_padding fuel (mem s) ptr 0 (ptr - 1) = Some (Verified, []))
    as Hloop.
  { destruct fuel as [|fuel]; [lia|]. simpl. loop_test Hin; [lia|reflexivity]. }
  split; [exact Hloop|]. split; [|split; [reflexivity|]].
  - unfold free_align. rewrite Hzero, Hloop, Z.sub_0_r. reflexivity.
  - unfold free, emit, diagnostics. simpl. rewrite filter_app. simpl.
    now rewrite app_nil_r.
Qed.

(** C6: whenever a byte the loop walks over, between [ptr - pad] and
    [ptr - 1] for the [pad] read at [ptr - 1], differs from [pad],
    free_align emits its diagnostic message and returns without any call
    of the backing release; memory and the outstanding allocations are
    as before. *)
Theorem free_align_corrupt_leaks (fuel : nat) (ptr q : Z) (s : state) :
  (255 < fuel)%nat ->
  let pad := load (mem s) (ptr - 1) in
  ptr - pad <= q <= ptr - 1 ->
  load (mem s) q <> pad ->
  exists visited s',
    verify_padding fuel (mem s) ptr pad (ptr - 1) = Some (Corrupted, visited) /\
    free_align fuel ptr s = Some s' /\
    mem s' = mem s /\
    trace s' = trace s ++ [EvDbg DBG_LIB 1 invalid_free_align] /\
    releases (trace s') = releases (trace s) /\
    outstanding (trace s') = outstanding (trace s).
Proof.
  intros Hfuel pad Hq Hne.
  pose proof (load_range (mem s) (ptr - 1)) as Hpad. fold pad in Hpad.
  destruct (verify_padding_dirty fuel (mem s) ptr pad (ptr - 1) q)
    as (visited & Hloop); auto.
  { rewrite remaining_start by lia. lia. }
  exists visited, (DBG1 DBG_LIB invalid_free_align s).
  split; [exact Hloop|]. split.
  - unfold free_align. fold pad. rewrite Hloop. reflexivity.
  - repeat split.
    + unfold DBG1, emit, releases. simpl. rewrite filter_app. simpl.
      now rewrite app_nil_r.
    + unfold DBG1, emit. simpl. rewrite outstanding_app. reflexivity.
Qed.

(** C9: free_align terminates whatever memory holds: for the value [pad]
    of the byte before the pointer the loop compares at most [pad] bytes,
    hence at most 255, and then free_align either refuses or releases. *)
Theorem free_align_terminates (fuel : nat) (ptr : Z) (s : state) :
  (255 < fuel)%nat ->
  let pad := load (mem s) (ptr - 1) in
  exists v visited s',
    verify_padding fuel (mem s) ptr pad (ptr - 1) = Some (v, visited) /\
    Z.of_nat (length visited) <= pad <= 255 /\
    free_align fuel ptr s = Some s' /\
    (s' = DBG1 DBG_LIB invalid_free_align s \/ s' = free (ptr - pad) s).
Proof.
  intros Hfuel pad.
  pose proof (load_range (mem s) (ptr - 1)) as Hpad. fold pad in Hpad.
  destruct (verify_padding_returns fuel (mem s) ptr pad (ptr - 1))
    as (v & visited & Hloop & Hlen).
  { rewrite remaining_start by lia. lia. }
  rewrite remaining_start in Hlen by lia.
  unfold free_align. fold pad. rewrite Hloop.
  destruct v; eexists _, visited, _;
    (split; [reflexivity|]); (split; [lia|]); (split; [reflexivity|]); auto.
Qed.

(** C10: the first byte the loop compares is the one at [ptr - 1], from
    which [pad] was read, so the loop never rejects there; and when that
    byte holds 1, whatever state memory is in otherwise, the loop ends
    after this one comparison, no corruption is reported and the backing
    release is called on [ptr - 1]. *)
Theorem free_align_pad_one (fuel : nat) (ptr : Z) (s : state) :
  (1 < fuel)%nat ->
  load (mem s) (ptr - 1) = 1 ->
  (forall fuel' m ptr',
      verify_padding fuel' m ptr' (load m (ptr' - 1)) (ptr' - 1)
        <> Some (Corrupted, [ptr' - 1])) /\
  verify_padding fuel (mem s) ptr 1 (ptr - 1) = Some (Verified, [ptr - 1]) /\
  free_align fuel ptr s = Some (free (ptr - 1) s) /\
  trace (free (ptr - 1) s) = trace s ++ [EvFree (ptr - 1)] /\
  diagnostics (trace (free (ptr - 1) s)) = diagnostics (trace s).
Proof.
  intros Hfuel Hone.
  assert (verify_padding fuel (mem s) ptr 1 (ptr - 1) = Some (Verified, [ptr - 1]))
    as Hloop.
  { destruct fuel as [|[|fuel]]; try lia.
    cbn [verify_padding]. rewrite Hone.
    loop_test Hin; [|lia]. rewrite Z.eqb_refl.
    loop_test Hin'; [lia|reflexivity]. }
  split; [|split; [exact Hloop|split; [|split; [reflexivity|]]]].
  - intros fuel' m ptr'. destruct fuel' as [|fuel']; [discriminate|].
    cbn [verify_padding]. loop_test Hin; [|discriminate].
    rewrite Z.eqb_refl.
    destruct (verify_padding fuel' m ptr' (load m (ptr' - 1)) (ptr' - 1 - 1))
      as [[v vs]|] eqn:E; [|discriminate].
    intros H. injection H as -> ->.
    now apply verify_padding_stops_on_byte in E.
  - unfold free_align. rewrite Hone, Hloop. reflexivity.
  - unfold free, emit, diagnostics. simpl. rewrite filter_app. simpl.
    now rewrite app_nil_r.
Qed.

(** ** Concrete runs *)

(** C1: on LP64, [malloc_align(SIZE_MAX, 1)]: the sum
    [align + sizeof(pad) + size] wraps to 1, one byte is requested from
    the backing allocator, and the pointer returned is one past that
    byte: it is aligned, but no byte of the backing allocation follows
    it, let alone [size] of them. *)
Theorem malloc_align_size_wraps :
  let size := 2 ^ 64 - 1 in
  let r := malloc_align 64 (fixed_backing 4096) size 1 zeroed in
  0 <= size < 2 ^ 64 /\
  trace (snd r) = [EvMalloc 1 4096] /\
  fst r = 4097 /\
  fst r mod 1 = 0 /\
  ~ (fst r + size <= 4096 + 1).
Proof. by_evaluation. Qed.

(** C7: on LP64, [malloc_align(SIZE_MAX, 1)] does not ask the backing
    allocator for [align + 1 + size] bytes: the sum
    [align + sizeof(pad) + size] wraps in [size_t] and one byte is
    requested.  The other half of the claim holds there as everywhere
    (lemma [malloc_align_failure]): when the request fails, NULL is
    returned, no byte has been written and nothing is outstanding. *)
Theorem malloc_align_request_wraps :
  let size := 2 ^ 64 - 1 in
  let r := malloc_align 64 (fixed_backing 4096) size 1 zeroed in
  let f := malloc_align 64 (fixed_backing NULL) size 1 zeroed in
  0 <= size < 2 ^ 64 /\
  request 64 size 1 = 1 /\
  trace (snd r) = [EvMalloc 1 4096] /\
  1 <> 1 + 1 + size /\
  fst f = NULL /\
  mem (snd f) = mem zeroed /\
  trace (snd f) = [EvMalloc 1 NULL] /\
  outstanding (trace (snd f)) = [].
Proof. by_evaluation. Qed.

(** C4 as stated fails: [malloc_align(10, 8)] on a backing block at 4096
    yields the pointer 4104 with 8 padding bytes of value 8; overwriting
    the padding byte at 4103 with 0 is not detected, and the backing
    release is called, on 4104. *)
Lemma overwritten_length_byte_undetected :
  let r := malloc_align 64 (fixed_backing 4096) 10 8 zeroed in
  let p := fst r in
  let pad := load (mem (snd r)) (p - 1) in
  p = 4104 /\ pad = 8 /\
  p - pad <= 4103 <= p - 1 /\ 0 <> pad /\
  option_map trace (free_align 256 p (poke 4103 0 (snd r))) =
    Some [EvMalloc 19 4096; EvFree 4104].
Proof. by_evaluation. Qed.

(** [malloc_align(10, 8)] on a backing block at 4096. *)
Lemma malloc_align_writes_pad_witness :
  let base := fixed_backing 4096 zeroed (size_wrap 64 (8 + sizeof_pad + 10)) in
  let pad := 8 - base mod 8 in
  let r := malloc_align 64 (fixed_backing 4096) 10 8 zeroed in
  1 <= pad <= 8 /\
  (base mod 8 = 0 -> pad = 8) /\
  fst r = base + pad /\
  (forall a, base <= a < base + pad -> load (mem (snd r)) a = pad) /\
  (forall a, ~ (base <= a < base + pad) -> mem (snd r) a = mem zeroed a).
Proof.
  apply (malloc_align_writes_pad 64 (fixed_backing 4096) 10 8 zeroed);
    [lia | by_evaluation].
Defined.

(** Allocate 10 bytes aligned to 8 at 4096, then release. *)
Lemma malloc_free_align_roundtrip_witness :
  let r := malloc_align 64 (fixed_backing 4096) 10 8 zeroed in
  exists s2,
    free_align 256 (fst r) (snd r) = Some s2 /\
    mem s2 = mem (snd r) /\
    trace s2 = trace zeroed ++ [EvMalloc (request 64 10 8) 4096; EvFree 4096] /\
    diagnostics (trace s2) = diagnostics (trace zeroed) /\
    releases (trace s2) = releases (trace zeroed) ++ [EvFree 4096] /\
    outstanding (trace s2) = outstanding (trace zeroed).
Proof.
  apply (malloc_free_align_roundtrip 64 (fixed_backing 4096) 256 10 8 zeroed);
    [lia | lia | by_evaluation].
Defined.

(** The padding byte at 4100 of the same allocation overwritten with 7. *)
Lemma free_align_detects_overwrite_witness :
  let r := malloc_align 64 (fixed_backing 4096) 10 8 zeroed in
  free_align 256 (fst r) (poke 4100 7 (snd r)) =
    Some (DBG1 DBG_LIB invalid_free_align (poke 4100 7 (snd r))) /\
  releases (trace (DBG1 DBG_LIB invalid_free_align (poke 4100 7 (snd r)))) =
    releases (trace (snd r)).
Proof.
  apply (free_align_detects_overwrite 64 (fixed_backing 4096) 256 10 8 zeroed
           4100 7);
    [lia | lia | by_evaluation | by_evaluation | lia | by_evaluation
    | left; by_evaluation].
Defined.

(** The byte at 4103, just before the pointer 4104, overwritten with 0. *)
Lemma free_align_pad_zero_witness :
  let s := poke 4103 0 (snd (malloc_align 64 (fixed_backing 4096) 10 8 zeroed)) in
  verify_padding 256 (mem s) 4104 0 (4104 - 1) = Some (Verified, []) /\
  free_align 256 4104 s = Some (free 4104 s) /\
  trace (free 4104 s) = trace s ++ [EvFree 4104] /\
  diagnostics (trace (free 4104 s)) = diagnostics (trace s).
Proof.
  apply (free_align_pad_zero 256 4104); [lia | by_evaluation].
Defined.

(** Release after the padding byte at 4100 was overwritten with 7. *)
Lemma free_align_corrupt_leaks_witness :
  let s := poke 4100 7 (snd (malloc_align 64 (fixed_backing 4096) 10 8 zeroed)) in
  let pad := load (mem s) (4104 - 1) in
  exists visited s',
    verify_padding 256 (mem s) 4104 pad (4104 - 1) = Some (Corrupted, visited) /\
    free_align 256 4104 s = Some s' /\
    mem s' = mem s /\
    trace s' = trace s ++ [EvDbg DBG_LIB 1 invalid_free_align] /\
    releases (trace s') = releases (trace s) /\
    outstanding (trace s') = outstanding (trace s).
Proof.
  apply (free_align_corrupt_leaks 256 4104 4100); [lia | by_evaluation | by_evaluation].
Defined.

(** The loop on a damaged padding region of 8 bytes. *)
Lemma free_align_terminates_witness :
  let s := poke 4100 7 (snd (malloc_align 64 (fixed_backing 4096) 10 8 zeroed)) in
  let pad := load (mem s) (4104 - 1) in
  exists v visited s',
    verify_padding 256 (mem s) 4104 pad (4104 - 1) = Some (v, visited) /\
    Z.of_nat (length visited) <= pad <= 255 /\
    free_align 256 4104 s = Some s' /\
    (s' = DBG1 DBG_LIB invalid_free_align s \/ s' = free (4104 - pad) s).
Proof.
  apply (free_align_terminates 256 4104); lia.
Defined.

(** An allocation with 8 padding bytes whose last padding byte was
    overwritten with 1: the release goes to 4103, not to the base 4096. *)
Lemma free_align_pad_one_witness :
  let s := poke 4103 1 (snd (malloc_align 64 (fixed_backing 4096) 10 8 zeroed)) in
  (forall fuel' m ptr',
      verify_padding fuel' m ptr' (load m (ptr' - 1)) (ptr' - 1)
        <> Some (Corrupted, [ptr' - 1])) /\
  verify_padding 256 (mem s) 4104 1 (4104 - 1) = Some (Verified, [4104 - 1]) /\
  free_align 256 4104 s = Some (free (4104 - 1) s) /\
  trace (free (4104 - 1) s) = trace s ++ [EvFree (4104 - 1)] /\
  diagnostics (trace (free (4104 - 1) s)) = diagnostics (trace s).
Proof.
  apply (free_align_pad_one 256 4104); [lia | by_evaluation].
Defined.

(** ** More on release *)

(** An acceptance means every byte the loop had to walk over holds [pad]. *)
Lemma verify_padding_accepts (fuel : nat) (m : memory) (ptr pad pos : Z)
      (visited : list Z) :
  verify_padding fuel m ptr pad pos = Some (Verified, visited) ->
  forall a, ptr - pad <= a <= pos -> load m a = pad.
Proof.
  revert pos visited.
  induction fuel as [|fuel IH]; intros pos visited; simpl; [discriminate|].
  loop_test Hin; [|intros _ a Ha; lia].
  byte_test Heq; [|discriminate].
  destruct (verify_padding fuel m ptr pad (pos - 1)) as [[v vs]|] eqn:E;
    [|discriminate].
  intros H a Ha. injection H as -> _.
  destruct (Z.eq_dec a pos) as [->|Hne]; [assumption|].
  apply (IH _ _ E). lia.
Qed.

Lemma free_is_not_DBG1 (q : Z) (s : state) :
  free q s <> DBG1 DBG_LIB invalid_free_align s.
Proof.
  unfold free, DBG1, emit. intros H. injection H as H.
  apply app_inv_head in H. discriminate.
Qed.

(** A padding region that holds its own length is accepted, whatever the
    rest of memory and the trace are. *)
Lemma free_align_frame (fuel : nat) (ptr base : Z) (s : state) :
  (255 < fuel)%nat ->
  1 <= ptr - base <= 255 ->
  (forall x, base <= x < ptr -> load (mem s) x = ptr - base) ->
  free_align fuel ptr s = Some (free base s).
Proof.
  intros Hfuel Hpad Hfill.
  assert (load (mem s) (ptr - 1) = ptr - base) as Hlast by (apply Hfill; lia).
  rewrite free_align_clean; [|assumption|].
  - rewrite Hlast. do 2 f_equal. lia.
  - rewrite Hlast. intros a Ha. apply Hfill. lia.
Qed.

(** X2: free_align decides exactly on the bytes between [ptr - pad] and
    [ptr - 1], [pad] being the byte at [ptr - 1]: it releases [ptr - pad]
    if and only if all of them hold [pad], and emits its diagnostic if and
    only if one of them does not. *)
Theorem free_align_accepts_iff (fuel : nat) (ptr : Z) (s : state) :
  (255 < fuel)%nat ->
  let pad := load (mem s) (ptr - 1) in
  ((forall a, ptr - pad <= a <= ptr - 1 -> load (mem s) a = pad) <->
   free_align fuel ptr s = Some (free (ptr - pad) s)) /\
  ((exists a, ptr - pad <= a <= ptr - 1 /\ load (mem s) a <> pad) <->
   free_align fuel ptr s = Some (DBG1 DBG_LIB invalid_free_align s)).
Proof.
  intros Hfuel pad. split; split.
  - intros Hall. now apply free_align_clean.
  - unfold free_align. fold pad.
    destruct (verify_padding fuel (mem s) ptr pad (ptr - 1))
      as [[[|] vs]|] eqn:E; intros H.
    + eapply verify_padding_accepts; eassumption.
    + exfalso. apply (free_is_not_DBG1 (ptr - pad) s). congruence.
    + discriminate.
  - intros (a & Ha & Hne). now apply (free_align_dirty fuel ptr a).
  - unfold free_align. fold pad.
    destruct (verify_padding fuel (mem s) ptr pad (ptr - 1))
      as [[[|] vs]|] eqn:E; intros H.
    + exfalso. apply (free_is_not_DBG1 (ptr - pad) s). congruence.
    + eapply verify_padding_rejects; eassumption.
    + discriminate.
Qed.

(** X3: what free_align never does: it writes no byte, it makes one call
    only, and when that call is the backing release, the address released
    lies at most 255 bytes below the pointer and every byte from it up to
    the pointer holds the distance between the two. *)
Theorem free_align_sound (fuel : nat) (ptr : Z) (s s' : state) :
  free_align fuel ptr s = Some s' ->
  mem s' = mem s /\
  (s' = DBG1 DBG_LIB invalid_free_align s \/
   exists q, s' = free q s /\ ptr - 255 <= q <= ptr /\
             forall a, q <= a < ptr -> load (mem s) a = ptr - q).
Proof.
  unfold free_align.
  pose proof (load_range (mem s) (ptr - 1)) as Hpad.
  destruct (verify_padding fuel (mem s) ptr (load (mem s) (ptr - 1)) (ptr - 1))
    as [[[|] vs]|] eqn:E; intros H; try discriminate; injection H as <-.
  - split; [reflexivity|]. right. eexists. split; [reflexivity|].
    split; [lia|]. intros a Ha.
    rewrite (verify_padding_accepts _ _ _ _ _ _ E a) by lia. lia.
  - split; [reflexivity|]. now left.
Qed.

(** ** More on allocation *)

Lemma load_store_bytes_out (bs : list Z) (m : memory) (p x : Z) :
  ~ (p <= x < p + Z.of_nat (length bs)) ->
  store_bytes m p bs x = m x.
Proof.
  revert m p. induction bs as [|b bs IH]; intros m p Hout; simpl; auto.
  simpl length in Hout. rewrite IH by lia.
  unfold store. destruct (Z.eqb_spec x p); [lia|reflexivity].
Qed.

Lemma load_store_bytes_in (bs : list Z) (m : memory) (p : Z) (i : nat) :
  Forall (fun b => 0 <= b <= 255) bs ->
  (i < length bs)%nat ->
  load (store_bytes m p bs) (p + Z.of_nat i) = nth i bs 0.
Proof.
  revert m p i. induction bs as [|b bs IH]; intros m p i Hall Hi; simpl in *.
  - lia.
  - inversion Hall as [|? ? Hb Hbs]; subst.
    destruct i as [|i].
    + unfold load. rewrite load_store_bytes_out by lia.
      rewrite Z.add_0_r. now apply load_store_same.
    + replace (p + Z.of_nat (S i)) with (p + 1 + Z.of_nat i) by lia.
      apply IH; [assumption|lia].
Qed.

Lemma remove_first_skip (p q : Z) (l : list Z) :
  q <> p -> remove_first p (q :: l) = q :: remove_first p l.
Proof. intros Hne. simpl. now destruct (Z.eqb_spec q p). Qed.

Section AllocateMore.

Variable size_bits : Z.
Variable backing : state -> Z -> Z.

Lemma request_fits (size align : Z) :
  0 <= size -> 0 <= align <= 255 ->
  effective_align align + 1 + size < 2 ^ size_bits ->
  request size_bits size align = effective_align align + 1 + size.
Proof.
  intros Hs Ha Hfit. unfold request, size_wrap, sizeof_pad, effective_align in *.
  apply Z.mod_small. destruct (Z.eqb_spec align 0); lia.
Qed.

(** Where a successful [malloc_align] leaves things. *)
Lemma malloc_align_layout (size align : Z) (s : state) :
  0 <= align <= 255 ->
  backing s (request size_bits size align) <> NULL ->
  let a := effective_align align in
  let base := backing s (request size_bits size align) in
  let p := fst (malloc_align size_bits backing size align s) in
  let s1 := snd (malloc_align size_bits backing size align s) in
  1 <= p - base <= a /\ 1 <= a <= 255 /\
  p mod a = 0 /\
  (forall x, base <= x < p -> load (mem s1) x = p - base) /\
  (forall x, ~ (base <= x < p) -> mem s1 x = mem s x) /\
  trace s1 = trace s ++ [EvMalloc (request size_bits size align) base].
Proof.
  intros Ha Hbase a base p s1. subst p s1.
  rewrite (malloc_align_success size_bits backing size align s) by assumption.
  fold base. unfold effective_align in a. fold a. simpl.
  assert (1 <= a <= 255) as Ha' by (subst a; destruct (Z.eqb_spec align 0); lia).
  destruct (pad_range a base Ha') as [_ Hpad].
  split; [lia|]. split; [lia|]. split; [|split; [|split]].
  - rewrite (Z.div_mod base a) at 1 by lia.
    replace (a * (base / a) + base mod a + (a - base mod a))
      with ((base / a + 1) * a) by lia.
    apply Z.mod_mul. lia.
  - intros x Hx. replace (base + (a - base mod a) - base) with (a - base mod a) by lia.
    apply load_memset_in; lia.
  - intros x Hx. now apply memset_out.
  - reflexivity.
Qed.

(** X1: as long as [align + 1 + size] fits [size_t] (align a zero replaced
    by one), a successful malloc_align returns a pointer that is a
    multiple of align, and the [size] bytes from it on lie inside the
    backing block, behind the padding, with at least one byte of the
    block left over after them. *)
Theorem malloc_align_hunk (size align : Z) (s : state) :
  0 <= size -> 0 <= align <= 255 ->
  let a := effective_align align in
  let n := request size_bits size align in
  let base := backing s n in
  let p := fst (malloc_align size_bits backing size align s) in
  a + 1 + size < 2 ^ size_bits ->
  base <> NULL ->
  p mod a = 0 /\
  n = a + 1 + size /\
  base < p /\ p + size < base + n.
Proof.
  intros Hs Ha a n base p Hfit Hbase.
  destruct (malloc_align_layout size align s Ha Hbase) as (Hpad & _ & Hal & _).
  pose proof (request_fits size align Hs Ha Hfit) as Hreq.
  subst a n base p. cbv zeta in *.
  repeat split; try assumption; lia.
Qed.

(** X4: the data bytes are the caller's: whatever is stored from the
    returned pointer on, and anywhere else outside the padding, the
    release still verifies and frees the backing base. *)
Theorem malloc_align_data_writes_keep_release
        (fuel : nat) (size align : Z) (s : state) (m' : memory) :
  0 <= align <= 255 -> (255 < fuel)%nat ->
  let base := backing s (request size_bits size align) in
  let p := fst (malloc_align size_bits backing size align s) in
  let s1 := snd (malloc_align size_bits backing size align s) in
  base <> NULL ->
  (forall x, base <= x < p -> m' x = mem s1 x) ->
  free_align fuel p {| mem := m'; trace := trace s1 |} =
    Some (free base {| mem := m'; trace := trace s1 |}).
Proof.
  intros Ha Hfuel base p s1 Hbase Hsame.
  destruct (malloc_align_layout size align s Ha Hbase)
    as (Hpad & Ha' & _ & Hfill & _).
  fold base p s1 in Hpad, Hfill.
  apply free_align_frame; [assumption|lia|].
  intros x Hx. simpl. unfold load. rewrite Hsame by assumption.
  now apply Hfill.
Qed.

(** X5: two allocations in disjoint backing blocks do not disturb each
    other: released in either order, each release frees its own backing
    base, no corruption is reported, and nothing stays outstanding. *)
Theorem two_allocations_independent
        (fuel : nat) (size1 align1 size2 align2 : Z) (s : state) :
  (255 < fuel)%nat ->
  0 <= size1 -> 0 <= align1 <= 255 ->
  0 <= size2 -> 0 <= align2 <= 255 ->
  effective_align align1 + 1 + size1 < 2 ^ size_bits ->
  effective_align align2 + 1 + size2 < 2 ^ size_bits ->
  let n1 := request size_bits size1 align1 in
  let n2 := request size_bits size2 align2 in
  let r1 := malloc_align size_bits backing size1 align1 s in
  let r2 := malloc_align size_bits backing size2 align2 (snd r1) in
  let base1 := backing s n1 in
  let base2 := backing (snd r1) n2 in
  base1 <> NULL -> base2 <> NULL ->
  base1 + n1 <= base2 \/ base2 + n2 <= base1 ->
  free_align fuel (fst r1) (snd r2) = Some (free base1 (snd r2)) /\
  free_align fuel (fst r2) (free base1 (snd r2))
    = Some (free base2 (free base1 (snd r2))) /\
  free_align fuel (fst r2) (snd r2) = Some (free base2 (snd r2)) /\
  free_align fuel (fst r1) (free base2 (snd r2))
    = Some (free base1 (free base2 (snd r2))) /\
  outstanding (trace (free base2 (free base1 (snd r2)))) = outstanding (trace s) /\
  outstanding (trace (free base1 (free base2 (snd r2)))) = outstanding (trace s).
Proof.
  intros Hfuel Hs1 Ha1 Hs2 Ha2 Hfit1 Hfit2 n1 n2 r1 r2 base1 base2
         Hb1 Hb2 Hdisj.
  destruct (malloc_align_layout size1 align1 s Ha1 Hb1)
    as (Hpad1 & Hr1 & _ & Hfill1 & _ & Htr1).
  destruct (malloc_align_layout size2 align2 (snd r1) Ha2 Hb2)
    as (Hpad2 & Hr2 & _ & Hfill2 & Hout2 & Htr2).
  fold n1 r1 base1 in Hpad1, Hfill1, Htr1.
  fold n2 r2 base2 in Hpad2, Hfill2, Hout2, Htr2.
  pose proof (request_fits size1 align1 Hs1 Ha1 Hfit1) as Hn1. fold n1 in Hn1.
  pose proof (request_fits size2 align2 Hs2 Ha2 Hfit2) as Hn2. fold n2 in Hn2.
  assert (forall x, base1 <= x < fst r1 -> load (mem (snd r2)) x = fst r1 - base1)
    as Hkeep1.
  { intros x Hx. unfold load. rewrite Hout2 by lia. now apply Hfill1. }
  assert (base1 <> base2) as Hne by lia.
  repeat split.
  - apply free_align_frame; [assumption|lia|assumption].
  - apply free_align_frame; [assumption|lia|exact Hfill2].
  - apply free_align_frame; [assumption|lia|exact Hfill2].
  - apply free_align_frame; [assumption|lia|exact Hkeep1].
  - unfold free, emit. simpl. rewrite Htr2, Htr1, <- !app_assoc.
    rewrite outstanding_app. simpl.
    destruct (Z.eqb_spec base1 NULL); [contradiction|].
    destruct (Z.eqb_spec base2 NULL); [contradiction|].
    rewrite remove_first_skip by congruence.
    now rewrite !remove_first_head.
  - unfold free, emit. simpl. rewrite Htr2, Htr1, <- !app_assoc.
    rewrite outstanding_app. simpl.
    destruct (Z.eqb_spec base1 NULL); [contradiction|].
    destruct (Z.eqb_spec base2 NULL); [contradiction|].
    now rewrite !remove_first_head.
Qed.

End AllocateMore.

(** ** The initialisation macros *)

Section InitFacts.

Variable size_bits : Z.
Variable backing : state -> Z -> Z.

Lemma wrap_u8_range (z : Z) : 0 <= U8.wrap z <= 255.
Proof. unfold U8.wrap. pose proof (Z.mod_pos_bound z 256 ltac:(lia)). lia. Qed.

(** X6: INIT_EXTRA_ALIGN on a successful allocation whose size computation
    does not wrap: the object pointer is a multiple of the alignment
    (taken modulo 256), the object's bytes are in place, the [extra] bytes
    behind it are zero, all of it lies inside the backing block, and
    free_align on the object pointer releases the backing base. *)
Theorem INIT_EXTRA_ALIGN_object
        (fuel : nat) (obj : list Z) (extra align : Z) (s : state) :
  (255 < fuel)%nat ->
  Forall (fun b => 0 <= b <= 255) obj ->
  0 <= extra ->
  let sz := Z.of_nat (length obj) in
  let a := effective_align (U8.wrap align) in
  let n := a + 1 + (sz + extra) in
  let base := backing s n in
  n < 2 ^ size_bits ->
  0 < base ->
  exists this s',
    INIT_EXTRA_ALIGN size_bits backing obj extra align s = Some (this, s') /\
    this mod a = 0 /\
    base < this /\ this + sz + extra < base + n /\
    (forall i, (i < length obj)%nat ->
               load (mem s') (this + Z.of_nat i) = nth i obj 0) /\
    (forall x, this + sz <= x < this + sz + extra -> load (mem s') x = 0) /\
    trace s' = trace s ++ [EvMalloc n base] /\
    free_align fuel this s' = Some (free base s').
Proof.
  intros Hfuel Hobj Hextra sz a n base Hfit Hbase.
  pose proof (wrap_u8_range align) as Ha.
  assert (1 <= a <= 255) as Ha'.
  { subst a. unfold effective_align. destruct (Z.eqb_spec (U8.wrap align) 0); lia. }
  assert (0 <= sz) as Hsz by (subst sz; lia).
  assert (size_wrap size_bits (sz + extra) = sz + extra) as Hsize.
  { unfold size_wrap. apply Z.mod_small. lia. }
  assert (request size_bits (sz + extra) (U8.wrap align) = n) as Hreq.
  { apply request_fits; [lia|assumption|]. fold a. subst n. lia. }
  assert (backing s (request size_bits (sz + extra) (U8.wrap align)) <> NULL)
    as Hnn by (rewrite Hreq; fold base; unfold NULL; lia).
  destruct (malloc_align_layout size_bits backing (sz + extra) (U8.wrap align) s
              Ha Hnn) as (Hpad & _ & Hal & Hfill & Hout & Htr).
  rewrite Hreq in Hpad, Hfill, Hout, Htr. fold base a in Hpad, Hal, Hfill, Hout.
  assert (size_wrap size_bits extra = extra) as Hext.
  { unfold size_wrap. apply Z.mod_small. lia. }
  unfold INIT_EXTRA_ALIGN. fold sz. rewrite Hsize, Hext.
  destruct (malloc_align size_bits backing (sz + extra) (U8.wrap align) s)
    as [this s1] eqn:E.
  simpl fst in *. simpl snd in *.
  destruct (Z.eqb_spec this NULL) as [Hnull|_]; [unfold NULL in Hnull; lia|].
  eexists this, _. split; [reflexivity|]. simpl mem. simpl trace.
  assert (forall x, base <= x < this ->
            load (memset (store_bytes (mem s1) this obj) (this + sz) 0 extra) x
            = this - base) as Hkeep.
  { intros x Hx. unfold load. rewrite memset_out by lia.
    rewrite load_store_bytes_out by (fold sz; lia). now apply Hfill. }
  split; [assumption|]. split; [lia|]. split; [subst n; lia|].
  split; [|split; [|split]].
  - intros i Hi. unfold load. rewrite memset_out by (subst sz; lia).
    now apply load_store_bytes_in.
  - intros x Hx. apply load_memset_in; lia.
  - exact Htr.
  - apply free_align_frame; [assumption|lia|exact Hkeep].
Qed.

(** X7: the alignment given to INIT_ALIGN reaches malloc_align as a
    [u_int8_t]: a multiple of 256 arrives as 0 and is served as 1, so the
    object is placed one byte behind the backing base, whatever alignment
    was asked for. *)
Theorem INIT_ALIGN_wide_alignment (obj : list Z) (align : Z) (s : state) :
  align mod 256 = 0 ->
  let sz := Z.of_nat (length obj) in
  let n := 1 + 1 + sz in
  let base := backing s n in
  n < 2 ^ size_bits ->
  0 < base ->
  exists s',
    INIT_ALIGN size_bits backing obj align s = Some (base + 1, s') /\
    trace s' = trace s ++ [EvMalloc n base].
Proof.
  intros Hwide sz n base Hfit Hbase.
  assert (0 <= sz) as Hsz by (subst sz; lia).
  assert (request size_bits sz 0 = n) as Hreq.
  { change n with (effective_align 0 + 1 + sz).
    apply request_fits; [lia|lia|]. change (effective_align 0) with 1.
    subst n. lia. }
  unfold INIT_ALIGN. fold sz. unfold U8.wrap. rewrite Hwide.
  rewrite (malloc_align_success size_bits backing sz 0 s)
    by (rewrite ?Hreq; fold base; unfold NULL; lia).
  rewrite Hreq. fold base. simpl (if 0 =? 0 then 1 else 0).
  rewrite Z.mod_1_r. simpl (1 - 0).
  destruct (Z.eqb_spec (base + 1) NULL) as [Hnull|_]; [unfold NULL in Hnull; lia|].
  eexists. split; reflexivity.
Qed.

End InitFacts.

(** ** Rounding of sizes *)

Section RoundingFacts.

Variable size_bits : Z.

Lemma multiple_div (m a : Z) : 0 < a -> m mod a = 0 -> m = a * (m / a).
Proof. intros Ha Hm. pose proof (Z.div_mod m a ltac:(lia)). lia. Qed.

Lemma pad_len_value (size alignment : Z) :
  0 <= size < 2 ^ size_bits -> 0 < alignment < 2 ^ size_bits ->
  pad_len size_bits size alignment =
    Some (if size mod alignment =? 0 then 0
          else alignment - size mod alignment).
Proof.
  intros Hs Ha. unfold pad_len.
  destruct (Z.eqb_spec alignment 0); [lia|].
  pose proof (Z.mod_pos_bound size alignment ltac:(lia)).
  destruct (Z.eqb_spec (size mod alignment) 0); [reflexivity|].
  unfold size_wrap. rewrite Z.mod_small by lia. reflexivity.
Qed.

Lemma round_down_value (size alignment : Z) :
  0 <= size < 2 ^ size_bits -> 0 < alignment < 2 ^ size_bits ->
  round_down size_bits size alignment = Some (size - size mod alignment).
Proof.
  intros Hs Ha. unfold round_down.
  destruct (Z.eqb_spec alignment 0); [lia|].
  pose proof (Z.mod_pos_bound size alignment ltac:(lia)).
  pose proof (Z.mod_le size alignment ltac:(lia) ltac:(lia)).
  unfold size_wrap. rewrite Z.mod_small by lia. reflexivity.
Qed.

(** X8: for a non-zero alignment, pad_len is the least number of bytes to
    add to [size] to reach a multiple of the alignment: it is below the
    alignment, and zero exactly when [size] is a multiple already. *)
Theorem pad_len_least (size alignment : Z) :
  0 <= size < 2 ^ size_bits -> 0 < alignment < 2 ^ size_bits ->
  exists pad,
    pad_len size_bits size alignment = Some pad /\
    0 <= pad < alignment /\
    (size + pad) mod alignment = 0 /\
    (pad = 0 <-> size mod alignment = 0) /\
    (forall q, 0 <= q -> (size + q) mod alignment = 0 -> pad <= q).
Proof.
  intros Hs Ha. rewrite pad_len_value by assumption.
  pose proof (Z.mod_pos_bound size alignment ltac:(lia)) as Hr.
  pose proof (Z.div_mod size alignment ltac:(lia)) as Hdm.
  eexists. split; [reflexivity|].
  destruct (Z.eqb_spec (size mod alignment) 0) as [E|E].
  - repeat split; try lia. rewrite Z.add_0_r. assumption.
  - repeat split; try lia.
    + replace (size + (alignment - size mod alignment))
        with ((size / alignment + 1) * alignment) by lia.
      apply Z.mod_mul. lia.
    + intros q Hq Hm.
      pose proof (multiple_div _ alignment ltac:(lia) Hm) as Hk.
      set (k := (size + q) / alignment) in *.
      set (d := size / alignment) in *.
      set (r := size mod alignment) in *.
      assert (d < k) by nia. nia.
Qed.

(** X9: when a multiple of the alignment lies between [size] and
    [SIZE_MAX], round_up returns the least multiple of the alignment that
    is not below [size]; it exceeds [size] by less than the alignment. *)
Theorem round_up_least_multiple (size alignment m : Z) :
  0 <= size < 2 ^ size_bits -> 0 < alignment < 2 ^ size_bits ->
  m mod alignment = 0 -> size <= m < 2 ^ size_bits ->
  exists r,
    round_up size_bits size alignment = Some r /\
    r mod alignment = 0 /\
    size <= r < size + alignment /\
    r <= m.
Proof.
  intros Hs Ha Hm Hle. unfold round_up. rewrite pad_len_value by assumption.
  pose proof (Z.mod_pos_bound size alignment ltac:(lia)) as Hr.
  pose proof (Z.div_mod size alignment ltac:(lia)) as Hdm.
  pose proof (multiple_div m alignment ltac:(lia) Hm) as Hk.
  set (k := m / alignment) in *. set (q := size / alignment) in *.
  eexists. split; [reflexivity|]. unfold size_wrap.
  destruct (Z.eqb_spec (size mod alignment) 0) as [E|E].
  - rewrite Z.add_0_r, (Z.mod_small size) by lia.
    repeat split; lia.
  - set (r := size mod alignment) in *.
    assert (q < k) by nia.
    assert (size + (alignment - r) <= m) as Hfit by nia.
    rewrite (Z.mod_small (size + (alignment - r))) by lia.
    repeat split; try lia.
    replace (size + (alignment - r)) with ((q + 1) * alignment) by lia.
    apply Z.mod_mul. lia.
Qed.

(** X10: round_up wraps: for an alignment that divides [2 ^ size_bits]
    (a power of two) and a [size] within less than the alignment of
    [2 ^ size_bits], the sum overflows [size_t] and round_up returns 0. *)
Theorem round_up_wraps_to_zero (size alignment : Z) :
  0 < alignment < 2 ^ size_bits ->
  (2 ^ size_bits) mod alignment = 0 ->
  2 ^ size_bits - alignment < size < 2 ^ size_bits ->
  round_up size_bits size alignment = Some 0.
Proof.
  intros Ha Hdiv Hs. unfold round_up. rewrite pad_len_value by lia.
  pose proof (Z.mod_pos_bound size alignment ltac:(lia)) as Hr.
  pose proof (Z.div_mod size alignment ltac:(lia)) as Hdm.
  pose proof (multiple_div _ alignment ltac:(lia) Hdiv) as Hk.
  set (k := 2 ^ size_bits / alignment) in *. set (q := size / alignment) in *.
  assert (q = k - 1) as Hq by nia.
  destruct (Z.eqb_spec (size mod alignment) 0) as [E|E]; [nia|].
  f_equal. unfold size_wrap.
  replace (size + (alignment - size mod alignment)) with (2 ^ size_bits) by nia.
  apply Z.mod_same. lia.
Qed.

(** X11: for a non-zero alignment, round_down returns the greatest
    multiple of the alignment that does not exceed [size]; it is below
    [size] by less than the alignment, and never wraps. *)
Theorem round_down_greatest_multiple (size alignment : Z) :
  0 <= size < 2 ^ size_bits -> 0 < alignment < 2 ^ size_bits ->
  exists r,
    round_down size_bits size alignment = Some r /\
    r mod alignment = 0 /\
    0 <= r <= size /\ size < r + alignment /\
    (forall m, m mod alignment = 0 -> m <= size -> m <= r).
Proof.
  intros Hs Ha. rewrite round_down_value by assumption.
  pose proof (Z.mod_pos_bound size alignment ltac:(lia)) as Hr.
  pose proof (Z.div_mod size alignment ltac:(lia)) as Hdm.
  pose proof (Z.div_pos size alignment ltac:(lia) ltac:(lia)) as Hq.
  eexists. split; [reflexivity|]. repeat split; try lia; try nia.
  - replace (size - size mod alignment) with (size / alignment * alignment) by lia.
    apply Z.mod_mul. lia.
  - intros m Hm Hle.
    pose proof (multiple_div _ alignment ltac:(lia) Hm) as Hk.
    set (k := m / alignment) in *.
    set (d := size / alignment) in *.
    set (r := size mod alignment) in *.
    assert (k <= d) by nia. nia.
Qed.

(** The value of round_up when a multiple of the alignment lies between
    [size] and [SIZE_MAX]. *)
Lemma round_up_value (size alignment m : Z) :
  0 <= size < 2 ^ size_bits -> 0 < alignment < 2 ^ size_bits ->
  m mod alignment = 0 -> size <= m < 2 ^ size_bits ->
  let u := if size mod alignment =? 0 then size
           else size - size mod alignment + alignment in
  round_up size_bits size alignment = Some u /\ size <= u <= m.
Proof.
  intros Hs Ha Hm Hle u. subst u.
  unfold round_up. rewrite pad_len_value by assumption.
  pose proof (Z.mod_pos_bound size alignment ltac:(lia)) as Hr.
  pose proof (Z.div_mod size alignment ltac:(lia)) as Hdm.
  pose proof (multiple_div m alignment ltac:(lia) Hm) as Hk.
  set (k := m / alignment) in *. set (q := size / alignment) in *.
  set (r := size mod alignment) in *. unfold size_wrap.
  destruct (Z.eqb_spec r 0) as [E|E].
  - rewrite Z.add_0_r, (Z.mod_small size) by lia. split; [reflexivity|lia].
  - assert (q < k) by nia.
    assert (size + (alignment - r) <= m) as Hfit by nia.
    rewrite (Z.mod_small (size + (alignment - r))) by lia.
    split; [f_equal; lia|lia].
Qed.

(** X12: for every [size_t] size and non-zero alignment: multiples of
    the alignment are fixed points of round_up and round_down; round_down
    is idempotent; a size that is no multiple lies strictly between the
    round_down result [d] and [d + alignment], and round_up returns
    [d + alignment] reduced modulo [2 ^ size_bits]; whenever that sum
    does not wrap, round_up is idempotent too. *)
Theorem round_up_down_gap (size alignment : Z) :
  0 <= size < 2 ^ size_bits -> 0 < alignment < 2 ^ size_bits ->
  exists d u,
    round_down size_bits size alignment = Some d /\
    round_up size_bits size alignment = Some u /\
    round_down size_bits d alignment = Some d /\
    (size mod alignment = 0 -> d = size /\ u = size) /\
    (size mod alignment <> 0 ->
       d < size < d + alignment /\
       u = (d + alignment) mod 2 ^ size_bits) /\
    (size mod alignment = 0 \/ d + alignment < 2 ^ size_bits ->
       size <= u < size + alignment /\
       round_up size_bits u alignment = Some u).
Proof.
  intros Hs Ha.
  pose proof (Z.mod_pos_bound size alignment ltac:(lia)) as Hr.
  pose proof (Z.mod_le size alignment ltac:(lia) ltac:(lia)) as Hle.
  pose proof (Z.div_mod size alignment ltac:(lia)) as Hdm.
  set (d := size - size mod alignment).
  assert (d mod alignment = 0) as Hd.
  { subst d. replace (size - size mod alignment)
      with (size / alignment * alignment) by lia.
    apply Z.mod_mul. lia. }
  assert (forall x, 0 <= x < 2 ^ size_bits -> x mod alignment = 0 ->
                    round_up size_bits x alignment = Some x) as Hfix.
  { intros x Hx Hx0. unfold round_up. rewrite pad_len_value by lia.
    rewrite Hx0. simpl. unfold size_wrap.
    rewrite Z.add_0_r, Z.mod_small by lia. reflexivity. }
  exists d. unfold round_up. rewrite pad_len_value by lia.
  rewrite !round_down_value by (subst d; lia). fold d. rewrite Hd, Z.sub_0_r.
  unfold size_wrap.
  destruct (Z.eqb_spec (size mod alignment) 0) as [E|E].
  - assert (d = size) as Hds by (subst d; lia).
    eexists. split; [reflexivity|]. split; [reflexivity|].
    split; [reflexivity|].
    rewrite Z.add_0_r, (Z.mod_small size (2 ^ size_bits)) by lia.
    split; [auto|]. split; [contradiction|].
    intros _. split; [lia|]. apply Hfix; [lia|assumption].
  - replace (size + (alignment - size mod alignment)) with (d + alignment)
      by (subst d; lia).
    eexists. split; [reflexivity|]. split; [reflexivity|].
    split; [reflexivity|].
    split; [contradiction|]. split; [intros _; subst d; lia|].
    intros [Hz|Hfit]; [contradiction|].
    rewrite (Z.mod_small (d + alignment)) by (subst d; lia).
    split; [subst d; lia|]. apply Hfix; [subst d; lia|].
    rewrite <- (Z.mul_1_l alignment) at 1. rewrite Z.mod_add by lia.
    assumption.
Qed.

(** X13: round_down is monotone in size, for all [size_t] sizes; round_up
    is monotone whenever a multiple of the alignment lies between the
    larger size and [SIZE_MAX], that is, whenever it does not wrap. *)
Theorem rounding_monotone (size1 size2 alignment : Z) :
  0 <= size1 <= size2 -> size2 < 2 ^ size_bits ->
  0 < alignment < 2 ^ size_bits ->
  exists d1 d2,
    round_down size_bits size1 alignment = Some d1 /\
    round_down size_bits size2 alignment = Some d2 /\
    d1 <= d2 /\
    (forall m, m mod alignment = 0 -> size2 <= m < 2 ^ size_bits ->
       exists u1 u2,
         round_up size_bits size1 alignment = Some u1 /\
         round_up size_bits size2 alignment = Some u2 /\
         u1 <= u2 <= m).
Proof.
  intros Hs Hhi Ha.
  pose proof (Z.mod_pos_bound size1 alignment ltac:(lia)) as Hr1.
  pose proof (Z.mod_pos_bound size2 alignment ltac:(lia)) as Hr2.
  pose proof (Z.div_mod size1 alignment ltac:(lia)) as Hdm1.
  pose proof (Z.div_mod size2 alignment ltac:(lia)) as Hdm2.
  pose proof (Z.div_le_mono size1 size2 alignment ltac:(lia) ltac:(lia)) as Hq.
  rewrite !round_down_value by lia.
  eexists _, _. split; [reflexivity|]. split; [reflexivity|].
  set (q1 := size1 / alignment) in *. set (q2 := size2 / alignment) in *.
  set (r1 := size1 mod alignment) in *. set (r2 := size2 mod alignment) in *.
  split; [nia|].
  intros m Hm Hle.
  destruct (round_up_value size1 alignment m ltac:(lia) Ha Hm ltac:(lia))
    as [Hu1 Hb1].
  destruct (round_up_value size2 alignment m ltac:(lia) Ha Hm ltac:(lia))
    as [Hu2 Hb2].
  fold r1 in Hu1, Hb1. fold r2 in Hu2, Hb2.
  eexists _, _. split; [exact Hu1|]. split; [exact Hu2|].
  split; [|lia].
  destruct (Z.eqb_spec r1 0) as [E1|E1];
    destruct (Z.eqb_spec r2 0) as [E2|E2]; try nia.
  assert (q1 < q2) by nia. nia.
Qed.

End RoundingFacts.

(** ** Time values *)

Lemma in_long_iff (z : Z) : in_long z = true <-> LONG_MIN <= z <= LONG_MAX.
Proof.
  unfold in_long. rewrite andb_true_iff, Z.leb_le, Z.leb_le. reflexivity.
Qed.

(** The loop carries whole seconds out of a non-negative microsecond
    field. *)
Lemma timeval_carry_normalises (fuel : nat) (sec usec : Z) :
  0 <= usec ->
  (Z.to_nat (usec / 1000000) < fuel)%nat ->
  LONG_MIN <= sec -> sec + usec / 1000000 <= LONG_MAX ->
  timeval_carry fuel {| tv_sec := sec; tv_usec := usec |} =
    Ok {| tv_sec := sec + usec / 1000000; tv_usec := usec mod 1000000 |}.
Proof.
  revert sec usec.
  induction fuel as [|fuel IH]; intros sec usec Hu Hfuel Hlo Hhi; [lia|].
  cbn [timeval_carry tv_usec tv_sec].
  destruct (Z.leb_spec 1000000 usec) as [Hge|Hlt].
  - assert ((usec - 1000000) / 1000000 = usec / 1000000 - 1) as Hq.
    { replace (usec - 1000000) with (usec + (-1) * 1000000) by lia.
      rewrite Z.div_add by lia. lia. }
    assert ((usec - 1000000) mod 1000000 = usec mod 1000000) as Hm.
    { replace (usec - 1000000) with (usec + (-1) * 1000000) by lia.
      apply Z.mod_add. lia. }
    assert (1 <= usec / 1000000) as Hone.
    { apply Z.div_le_lower_bound; lia. }
    replace (in_long (sec + 1)) with true
      by (symmetry; apply in_long_iff; unfold LONG_MIN, LONG_MAX in *; lia).
    rewrite IH by (rewrite ?Hq; lia).
    rewrite Hq, Hm. do 2 f_equal. lia.
  - rewrite Z.div_small, Z.mod_small by lia. now rewrite Z.add_0_r.
Qed.

(** X14: on a normalised timeval, timeval_add_ms returns a normalised
    timeval that is later by [ms * 1000 mod 2^32] microseconds: by exactly
    [ms] milliseconds up to [ms = 4294967], and by less than asked for
    from [ms = 4294968] on, where the product wraps in [u_int]. *)
Theorem timeval_add_ms_normalised (fuel : nat) (tv : timeval_t) (ms : Z) :
  (4295 < fuel)%nat ->
  0 <= ms < 2 ^ UINT_BITS ->
  0 <= tv_usec tv < 1000000 ->
  LONG_MIN <= tv_sec tv -> tv_sec tv + 4295 <= LONG_MAX ->
  exists tv',
    timeval_add_ms fuel tv ms = Ok tv' /\
    0 <= tv_usec tv' < 1000000 /\
    tv_sec tv <= tv_sec tv' <= tv_sec tv + 4295 /\
    micros tv' = micros tv + (ms * 1000) mod 2 ^ UINT_BITS /\
    (ms <= 4294967 -> micros tv' = micros tv + ms * 1000) /\
    (4294967 < ms -> micros tv' < micros tv + ms * 1000).
Proof.
  intros Hfuel Hms Husec Hlo Hhi. unfold timeval_add_ms, UINT_BITS in *.
  set (added := (ms * 1000) mod 2 ^ 32).
  assert (0 <= added < 2 ^ 32) as Hadded by (apply Z.mod_pos_bound; lia).
  change (2 ^ 32) with 4294967296 in *.
  set (usec := tv_usec tv + added).
  assert (0 <= usec / 1000000 <= 4295) as Hq.
  { split; [apply Z.div_pos; subst usec; lia|].
    assert (usec / 1000000 < 4296); [|lia].
    apply Z.div_lt_upper_bound; subst usec; lia. }
  pose proof (Z.mod_pos_bound usec 1000000 ltac:(lia)) as Hr.
  pose proof (Z.div_mod usec 1000000 ltac:(lia)) as Hdm.
  replace (in_long usec) with true
    by (symmetry; apply in_long_iff; unfold LONG_MIN, LONG_MAX; subst usec; lia).
  rewrite timeval_carry_normalises; try (subst usec; lia).
  eexists. split; [reflexivity|]. unfold micros. cbn [tv_sec tv_usec].
  split; [lia|]. split; [lia|]. split; [subst usec; lia|]. split.
  - intros Hsmall.
    assert (added = ms * 1000) as Hexact
      by (subst added; apply Z.mod_small; lia).
    clearbody added. subst usec. lia.
  - intros Hbig. clearbody added. subst usec. lia.
Qed.

(** X15: timeval_add_ms carries upwards only: when the microsecond field
    is still negative after the addition, it is left negative and the
    seconds stay as they were. *)
Theorem timeval_add_ms_keeps_negative (fuel : nat) (tv : timeval_t) (ms : Z) :
  (0 < fuel)%nat ->
  LONG_MIN <= tv_usec tv ->
  tv_usec tv + (ms * 1000) mod 2 ^ UINT_BITS < 0 ->
  timeval_add_ms fuel tv ms =
    Ok {| tv_sec := tv_sec tv;
          tv_usec := tv_usec tv + (ms * 1000) mod 2 ^ UINT_BITS |}.
Proof.
  intros Hfuel Hlo Hneg. unfold timeval_add_ms.
  set (usec := tv_usec tv + (ms * 1000) mod 2 ^ UINT_BITS) in *.
  assert (0 <= (ms * 1000) mod 2 ^ UINT_BITS)
    by (apply Z.mod_pos_bound; unfold UINT_BITS; lia).
  replace (in_long usec) with true
    by (symmetry; apply in_long_iff; unfold LONG_MIN, LONG_MAX in *;
        subst usec; lia).
  destruct fuel as [|fuel]; [lia|]. cbn [timeval_carry tv_usec].
  destruct (Z.leb_spec 1000000 usec); [lia|reflexivity].
Qed.

(** ** The printf hook for time differences *)

(** X16: for two times whose difference fits [long long],
    time_delta_printf_hook prints their distance [d] in seconds when
    [d <= 120], in whole minutes when [120 < d <= 7200], in whole hours
    when [7200 < d <= 172800] and in whole days above that, rounded down;
    so minutes, hours and days are never fewer than 2, and the unit is in
    the singular only for a distance of exactly one second. *)
Theorem time_delta_args_unit (arg1 arg2 : Z) :
  LONG_MIN < arg1 - arg2 <= LONG_MAX ->
  let d := Z.abs (arg1 - arg2) in
  exists n unit ending,
    time_delta_args arg1 arg2 = Ok (n, unit, ending) /\
    (d <= 120 /\ unit = "second"%string /\ n = d \/
     120 < d <= 7200 /\ unit = "minute"%string /\ n = d / 60 \/
     7200 < d <= 172800 /\ unit = "hour"%string /\ n = d / 3600 \/
     172800 < d /\ unit = "day"%string /\ n = d / 86400) /\
    n * unit_seconds unit <= d < (n + 1) * unit_seconds unit /\
    (unit = "second"%string \/ 2 <= n) /\
    (ending = ""%string <-> d = 1) /\
    (ending = ""%string \/ ending = "s"%string).
Proof.
  intros Hrange d. unfold time_delta_args, llabs.
  replace (in_long (arg1 - arg2)) with true
    by (symmetry; apply in_long_iff; lia).
  destruct (Z.eqb_spec (arg1 - arg2) LONG_MIN) as [E|_]; [lia|].
  fold d.
  assert (0 <= d < 2 ^ 63) as Hd
    by (subst d; unfold LONG_MIN, LONG_MAX in *; lia).
  rewrite (Z.mod_small d) by (change (2 ^ 64) with (2 * 2 ^ 63); lia).
  change (2 * 60 * 60 * 24) with 172800. change (60 * 60 * 24) with 86400.
  change (2 * 60 * 60) with 7200. change (60 * 60) with 3600.
  change (2 * 60) with 120.
  destruct (Z.ltb_spec 172800 d) as [Hday|Hday];
    [|destruct (Z.ltb_spec 7200 d) as [Hhour|Hhour];
      [|destruct (Z.ltb_spec 120 d) as [Hmin|Hmin]]].
  - pose proof (Z.div_mod d 86400 ltac:(lia)).
    pose proof (Z.mod_pos_bound d 86400 ltac:(lia)).
    destruct (Z.eqb_spec (d / 86400) 1) as [E|E]; [lia|].
    eexists _, _, _. split; [reflexivity|].
    change (unit_seconds "day") with 86400.
    split; [do 3 right; auto|]. split; [lia|]. split; [right; lia|].
    split; [split; [discriminate|lia]|now right].
  - pose proof (Z.div_mod d 3600 ltac:(lia)).
    pose proof (Z.mod_pos_bound d 3600 ltac:(lia)).
    destruct (Z.eqb_spec (d / 3600) 1) as [E|E]; [lia|].
    eexists _, _, _. split; [reflexivity|].
    change (unit_seconds "hour") with 3600.
    split; [do 2 right; left; auto|]. split; [lia|]. split; [right; lia|].
    split; [split; [discriminate|lia]|now right].
  - pose proof (Z.div_mod d 60 ltac:(lia)).
    pose proof (Z.mod_pos_bound d 60 ltac:(lia)).
    destruct (Z.eqb_spec (d / 60) 1) as [E|E]; [lia|].
    eexists _, _, _. split; [reflexivity|].
    change (unit_seconds "minute") with 60.
    split; [right; left; auto|]. split; [lia|]. split; [right; lia|].
    split; [split; [discriminate|lia]|now right].
  - destruct (Z.eqb_spec d 1) as [E|E];
      eexists _, _, _; (split; [reflexivity|]);
      change (unit_seconds "second") with 1;
      (split; [left; auto|]); (split; [lia|]); (split; [now left|]).
    + split; [split; auto|now left].
    + split; [split; [discriminate|contradiction]|now right].
Qed.

(** X17: time_delta_printf_hook does not depend on the order of its two
    times, the undefined cases included. *)
Theorem time_delta_args_symmetric (arg1 arg2 : Z) :
  time_delta_args arg1 arg2 = time_delta_args arg2 arg1 /\
  time_delta_printf_hook arg1 arg2 = time_delta_printf_hook arg2 arg1.
Proof.
  assert (time_delta_args arg1 arg2 = time_delta_args arg2 arg1) as H.
  { unfold time_delta_args, llabs.
    replace (arg2 - arg1) with (- (arg1 - arg2)) by lia.
    set (d := arg1 - arg2).
    destruct (Z.eqb_spec d LONG_MIN) as [E|E].
    - replace (in_long (- d)) with false.
      + now destruct (in_long d).
      + symmetry. apply not_true_is_false. rewrite in_long_iff.
        unfold LONG_MIN, LONG_MAX in *. lia.
    - destruct (Z.eqb_spec (- d) LONG_MIN) as [E'|E'].
      + replace (in_long d) with false.
        * now destruct (in_long (- d)).
        * symmetry. apply not_true_is_false. rewrite in_long_iff.
          unfold LONG_MIN, LONG_MAX in *. lia.
      + rewrite Z.abs_opp.
        replace (in_long (- d)) with (in_long d); [reflexivity|].
        apply eq_true_iff_eq. rewrite !in_long_iff.
        unfold LONG_MIN, LONG_MAX in *. lia. }
  split; [exact H|]. unfold time_delta_printf_hook. now rewrite H.
Qed.

(** ** The printf hook for times *)

Lemma string_length_append (a b : string) :
  String.length (a ++ b) = (String.length a + String.length b)%nat.
Proof. induction a as [|c a IH]; simpl; auto. Qed.

(** A property checked for every number below a bound holds below it. *)
Lemma checked_below (P : Z -> bool) (bound : Z) :
  forallb (fun k => P (Z.of_nat k)) (seq 0 (Z.to_nat bound)) = true ->
  forall n, 0 <= n < bound -> P n = true.
Proof.
  intros Hall n Hn. rewrite forallb_forall in Hall.
  specialize (Hall (Z.to_nat n)). rewrite Z2Nat.id in Hall by lia.
  apply Hall, in_seq. lia.
Qed.

Lemma fmt_0d_two_digits (n : Z) :
  0 <= n <= 99 -> String.length (fmt_0d 2 n) = 2%nat.
Proof.
  intros Hn. apply Nat.eqb_eq.
  apply (checked_below (fun n => Nat.eqb (String.length (fmt_0d 2 n)) 2) 100);
    [vm_compute; reflexivity|lia].
Qed.

Lemma fmt_0d_four_digits (n : Z) :
  0 <= n <= 9999 -> String.length (fmt_0d 4 n) = 4%nat.
Proof.
  intros Hn. apply Nat.eqb_eq.
  apply (checked_below (fun n => Nat.eqb (String.length (fmt_0d 4 n)) 4) 10000);
    [vm_compute; reflexivity|lia].
Qed.

Lemma month_three_letters (m : Z) :
  0 <= m <= 11 -> String.length (nth (Z.to_nat m) months ""%string) = 3%nat.
Proof.
  intros Hm. apply Nat.eqb_eq.
  apply (checked_below
           (fun m => Nat.eqb (String.length (nth (Z.to_nat m) months ""%string)) 3)
           12);
    [vm_compute; reflexivity|lia].
Qed.

(** X18: whatever the conversion functions answer within the calendar,
    time_printf_hook writes a text of fixed width, 20 characters for local
    time and 24 for UTC, the placeholder for an undefined time included;
    and the time 0 is always printed as the placeholder, the conversion
    functions not being asked. *)
Theorem time_printf_hook_width
        (gmtime_r localtime_r : Z -> option tm) (time utc_arg : Z) :
  (forall t, gmtime_r time = Some t -> calendar t = true) ->
  (forall t, localtime_r time = Some t -> calendar t = true) ->
  exists text,
    time_printf_hook gmtime_r localtime_r time utc_arg = Ok text /\
    String.length text = (if utc_arg =? 0 then 20%nat else 24%nat) /\
    (time = UNDEFINED_TIME ->
     text = if utc_arg =? 0 then "--- -- --:--:-- ----"%string
            else "--- -- --:--:-- UTC ----"%string).
Proof.
  intros Hgm Hlt. unfold time_printf_hook.
  set (ret := if negb (time =? UNDEFINED_TIME)
              then if negb (utc_arg =? 0) then gmtime_r time else localtime_r time
              else None).
  assert (forall t, ret = Some t -> calendar t = true) as Hcal.
  { subst ret. intros t. destruct (time =? UNDEFINED_TIME); simpl; [discriminate|].
    destruct (utc_arg =? 0); simpl; auto. }
  assert (time = UNDEFINED_TIME -> ret = None) as Hundef.
  { intros ->. subst ret. reflexivity. }
  destruct ret as [t|].
  - specialize (Hcal t eq_refl). unfold calendar in Hcal.
    repeat (apply andb_true_iff in Hcal; destruct Hcal as [Hcal ?]).
    repeat match goal with
           | H : (_ <=? _) = true |- _ => apply Z.leb_le in H
           end.
    replace ((0 <=? tm_mon t) && (tm_mon t <? 12)
             && (tm_year t + 1900 <=? INT_MAX)) with true.
    + eexists. split; [reflexivity|]. split.
      * rewrite !string_length_append, month_three_letters, !fmt_0d_two_digits,
          fmt_0d_four_digits by lia.
        now destruct (utc_arg =? 0).
      * intros Hz. now apply Hundef in Hz.
    + symmetry. rewrite !andb_true_iff, Z.leb_le, Z.ltb_lt, Z.leb_le.
      unfold INT_MAX. lia.
  - eexists. split; [reflexivity|]. split; now destruct (utc_arg =? 0).
Qed.

(** ** Closing file descriptors *)

Lemma closefrom_loop_counts (fuel : nat) (fd maxfd : Z) :
  (Z.to_nat (maxfd - fd) < fuel)%nat ->
  closefrom_loop fuel fd maxfd = Some (count_up fd (Z.to_nat (maxfd - fd))).
Proof.
  revert fd. induction fuel as [|fuel IH]; intros fd Hfuel; [lia|].
  simpl. destruct (Z.ltb_spec fd maxfd) as [Hlt|Hge].
  - rewrite IH by lia.
    replace (Z.to_nat (maxfd - fd)) with (S (Z.to_nat (maxfd - (fd + 1)))) by lia.
    reflexivity.
  - replace (Z.to_nat (maxfd - fd)) with O by lia. reflexivity.
Qed.

Lemma count_up_in (n : nat) (fd x : Z) :
  In x (count_up fd n) <-> fd <= x < fd + Z.of_nat n.
Proof.
  revert fd. induction n as [|n IH]; intros fd; simpl.
  - lia.
  - rewrite IH. lia.
Qed.

Lemma count_up_nodup (n : nat) (fd : Z) : NoDup (count_up fd n).
Proof.
  revert fd. induction n as [|n IH]; intros fd; simpl; constructor; auto.
  rewrite count_up_in. lia.
Qed.

Lemma closefrom_entries_in (atoi : string -> Z) (lowfd : Z)
      (entries : list string) (x : Z) :
  In x (closefrom_entries atoi lowfd entries) <->
  lowfd <= x /\ exists rel, In rel entries /\ atoi rel = x.
Proof.
  induction entries as [|rel rest IH]; simpl.
  - split; [contradiction|]. intros (_ & r & [] & _).
  - destruct (Z.leb_spec lowfd (atoi rel)) as [Hge|Hlt]; simpl; rewrite IH.
    + split.
      * intros [<-|(Hx & r & Hr & E)]; [eauto|]. split; eauto.
      * intros (Hx & r & [<-|Hr] & E); [now left|]. right. eauto.
    + split.
      * intros (Hx & r & Hr & E). eauto.
      * intros (Hx & r & [<-|Hr] & E); [lia|]. eauto.
Qed.

Section ClosefromFacts.

Variable PATH_MAX : Z.
Variable atoi : string -> Z.
Variable len : Z.
Variable access_ok : bool.
Variable enumerator : option (list string).
Variable open_max : Z.

(** X19: closefrom never closes a descriptor below [lowfd], neither over
    the directory listing nor in the fallback loop. *)
Theorem closefrom_never_below (fuel : nat) (lowfd : Z) (closed : list Z) :
  closefrom PATH_MAX atoi len access_ok enumerator open_max fuel lowfd
    = Some closed ->
  forall fd, In fd closed -> lowfd <= fd.
Proof.
  unfold closefrom.
  assert (forall maxfd, closefrom_loop fuel lowfd maxfd = Some closed ->
                        forall fd, In fd closed -> lowfd <= fd) as Hloop.
  { clear. revert lowfd closed.
    induction fuel as [|fuel IH]; intros lowfd closed maxfd; simpl; [discriminate|].
    destruct (Z.ltb_spec lowfd maxfd) as [Hlt|Hge].
    - destruct (closefrom_loop fuel (lowfd + 1) maxfd) as [l|] eqn:E; [|discriminate].
      intros H fd Hin. injection H as <-. destruct Hin as [<-|Hin]; [lia|].
      specialize (IH _ _ _ E fd Hin). lia.
    - intros H fd Hin. injection H as <-. contradiction. }
  destruct ((0 <? len) && (len <? PATH_MAX) && access_ok); [|apply Hloop].
  destruct enumerator as [entries|]; [|apply Hloop].
  intros H fd Hin. injection H as <-.
  now apply closefrom_entries_in in Hin.
Qed.

(** X20: without a usable directory listing, closefrom closes every
    descriptor from [lowfd] up to, not including, the limit of open
    files, each once and in ascending order, the limit taken as 256 when
    [sysconf] fails; it closes nothing when [lowfd] is at or above the
    limit. *)
Theorem closefrom_fallback (fuel : nat) (lowfd : Z) :
  (0 <? len) && (len <? PATH_MAX) && access_ok = false \/ enumerator = None ->
  let maxfd := if open_max <? 0 then 256 else open_max in
  (Z.to_nat (maxfd - lowfd) < fuel)%nat ->
  exists closed,
    closefrom PATH_MAX atoi len access_ok enumerator open_max fuel lowfd
      = Some closed /\
    closed = count_up lowfd (Z.to_nat (maxfd - lowfd)) /\
    (forall fd, In fd closed <-> lowfd <= fd < maxfd) /\
    NoDup closed /\
    (maxfd <= lowfd -> closed = []).
Proof.
  intros Hpath maxfd Hfuel.
  exists (count_up lowfd (Z.to_nat (maxfd - lowfd))).
  split; [|split; [reflexivity|split; [|split]]].
  - unfold closefrom. fold maxfd.
    destruct Hpath as [-> | ->].
    + now apply closefrom_loop_counts.
    + destruct ((0 <? len) && (len <? PATH_MAX) && access_ok);
        now apply closefrom_loop_counts.
  - intros fd. rewrite count_up_in. lia.
  - apply count_up_nodup.
  - intros Hle. replace (Z.to_nat (maxfd - lowfd)) with O by lia. reflexivity.
Qed.

(** Over a directory listing, closefrom closes the entries whose name
    reads as a number not below [lowfd], in the order listed. *)
Lemma closefrom_listing (fuel : nat) (lowfd : Z) (entries : list string) :
  0 < len < PATH_MAX -> access_ok = true -> enumerator = Some entries ->
  closefrom PATH_MAX atoi len access_ok enumerator open_max fuel lowfd
    = Some (filter (fun fd => lowfd <=? fd) (map atoi entries)).
Proof.
  intros Hlen -> ->. unfold closefrom.
  replace ((0 <? len) && (len <? PATH_MAX) && true) with true
    by (symmetry; rewrite !andb_true_iff, !Z.ltb_lt; intuition lia).
  f_equal. induction entries as [|rel rest IH]; simpl; [reflexivity|].
  destruct (lowfd <=? atoi rel); now rewrite IH.
Qed.

End ClosefromFacts.

(** ** Adding milliseconds twice *)

(** The value of timeval_add_ms on a normalised timeval. *)
Lemma timeval_add_ms_value (fuel : nat) (tv : timeval_t) (ms : Z) :
  (4295 < fuel)%nat ->
  0 <= ms < 2 ^ UINT_BITS ->
  0 <= tv_usec tv < 1000000 ->
  LONG_MIN <= tv_sec tv -> tv_sec tv + 4295 <= LONG_MAX ->
  let usec := tv_usec tv + (ms * 1000) mod 2 ^ UINT_BITS in
  timeval_add_ms fuel tv ms =
    Ok {| tv_sec := tv_sec tv + usec / 1000000;
          tv_usec := usec mod 1000000 |}.
Proof.
  intros Hfuel Hms Husec Hlo Hhi usec. unfold timeval_add_ms. fold usec.
  assert (0 <= (ms * 1000) mod 2 ^ UINT_BITS < 4294967296) as Hadded
    by (apply Z.mod_pos_bound; unfold UINT_BITS; lia).
  assert (0 <= usec / 1000000 < 4296) as Hq.
  { split; [apply Z.div_pos; subst usec; lia|].
    apply Z.div_lt_upper_bound; subst usec; lia. }
  replace (in_long usec) with true
    by (symmetry; apply in_long_iff; unfold LONG_MIN, LONG_MAX in *;
        subst usec; lia).
  apply timeval_carry_normalises; subst usec; lia.
Qed.

(** X21: adding [ms1] and then [ms2] milliseconds to a normalised timeval
    gives the same timeval as adding [ms1 + ms2] at once, as long as the
    sum stays within the 4294967 milliseconds that do not wrap. *)
Theorem timeval_add_ms_composes
        (fuel : nat) (tv : timeval_t) (ms1 ms2 : Z) :
  (4295 < fuel)%nat ->
  0 <= ms1 -> 0 <= ms2 -> ms1 + ms2 <= 4294967 ->
  0 <= tv_usec tv < 1000000 ->
  LONG_MIN <= tv_sec tv -> tv_sec tv + 2 * 4295 <= LONG_MAX ->
  exists tv1 tv2,
    timeval_add_ms fuel tv ms1 = Ok tv1 /\
    timeval_add_ms fuel tv1 ms2 = Ok tv2 /\
    timeval_add_ms fuel tv (ms1 + ms2) = Ok tv2.
Proof.
  intros Hfuel H1 H2 Hsum Husec Hlo Hhi.
  assert (forall ms, 0 <= ms <= 4294967 ->
            (ms * 1000) mod 2 ^ UINT_BITS = ms * 1000) as Hexact.
  { intros ms Hms. apply Z.mod_small. unfold UINT_BITS.
    change (2 ^ 32) with 4294967296. lia. }
  assert (2 ^ UINT_BITS = 4294967296) as Hbits by reflexivity.
  set (u := tv_usec tv) in *. set (sec := tv_sec tv) in *.
  pose proof (Z.div_mod (u + ms1 * 1000) 1000000 ltac:(lia)) as Hdm1.
  pose proof (Z.mod_pos_bound (u + ms1 * 1000) 1000000 ltac:(lia)) as Hr1.
  assert (0 <= (u + ms1 * 1000) / 1000000 < 4296) as Hq1.
  { split; [apply Z.div_pos; lia|apply Z.div_lt_upper_bound; lia]. }
  eexists _, _.
  split; [|split].
  - rewrite timeval_add_ms_value by (rewrite ?Hbits; fold u sec; lia).
    rewrite Hexact by lia. fold u sec. reflexivity.
  - rewrite timeval_add_ms_value
      by (rewrite ?Hbits; cbn [tv_sec tv_usec]; lia).
    rewrite Hexact by lia. cbn [tv_sec tv_usec]. reflexivity.
  - rewrite timeval_add_ms_value by (rewrite ?Hbits; fold u sec; lia).
    rewrite Hexact by lia. fold u sec. f_equal.
    set (q1 := (u + ms1 * 1000) / 1000000) in *.
    set (r1 := (u + ms1 * 1000) mod 1000000) in *.
    replace (u + (ms1 + ms2) * 1000) with (r1 + ms2 * 1000 + q1 * 1000000) by lia.
    rewrite Z.div_add, Z.mod_add by lia. f_equal. lia.
Qed.

(** ** More concrete runs *)

(** Ten bytes aligned to 8 in a block at 4096. *)
Lemma malloc_align_hunk_witness :
  let a := effective_align 8 in
  let n := request 64 10 8 in
  let base := fixed_backing 4096 zeroed n in
  let p := fst (malloc_align 64 (fixed_backing 4096) 10 8 zeroed) in
  p mod a = 0 /\ n = a + 1 + 10 /\ base < p /\ p + 10 < base + n.
Proof.
  apply (malloc_align_hunk 64 (fixed_backing 4096) 10 8 zeroed);
    [lia | lia | by_evaluation | by_evaluation].
Defined.

(** Release of a padding region that had one byte overwritten. *)
Lemma free_align_accepts_iff_witness :
  let s := poke 4100 7 (snd (malloc_align 64 (fixed_backing 4096) 10 8 zeroed)) in
  let pad := load (mem s) (4104 - 1) in
  ((forall a, 4104 - pad <= a <= 4104 - 1 -> load (mem s) a = pad) <->
   free_align 256 4104 s = Some (free (4104 - pad) s)) /\
  ((exists a, 4104 - pad <= a <= 4104 - 1 /\ load (mem s) a <> pad) <->
   free_align 256 4104 s = Some (DBG1 DBG_LIB invalid_free_align s)).
Proof. apply (free_align_accepts_iff 256 4104). lia. Defined.

(** The release of a fresh allocation goes to its base, 8 bytes below. *)
Lemma free_align_sound_witness :
  let s := snd (malloc_align 64 (fixed_backing 4096) 10 8 zeroed) in
  let s' := free 4096 s in
  mem s' = mem s /\
  (s' = DBG1 DBG_LIB invalid_free_align s \/
   exists q, s' = free q s /\ 4104 - 255 <= q <= 4104 /\
             forall a, q <= a < 4104 -> load (mem s) a = 4104 - q).
Proof. apply (free_align_sound 256 4104). by_evaluation. Defined.

(** The ten data bytes filled with 255 before the release. *)
Lemma malloc_align_data_writes_keep_release_witness :
  let s1 := snd (malloc_align 64 (fixed_backing 4096) 10 8 zeroed) in
  let m' := memset (mem s1) 4104 255 10 in
  free_align 256 4104 {| mem := m'; trace := trace s1 |} =
    Some (free 4096 {| mem := m'; trace := trace s1 |}).
Proof.
  apply (malloc_align_data_writes_keep_release
           64 (fixed_backing 4096) 256 10 8 zeroed);
    [lia | lia | by_evaluation |].
  intros x Hx. change (4096 <= x < 4104) in Hx. apply memset_out. lia.
Defined.

(** Two allocations in blocks at 4096 and 4160. *)
Lemma two_allocations_independent_witness :
  let r1 := malloc_align 64 bump_backing 10 8 zeroed in
  let r2 := malloc_align 64 bump_backing 100 16 (snd r1) in
  free_align 256 (fst r1) (snd r2) = Some (free 4096 (snd r2)) /\
  free_align 256 (fst r2) (free 4096 (snd r2))
    = Some (free 4160 (free 4096 (snd r2))) /\
  free_align 256 (fst r2) (snd r2) = Some (free 4160 (snd r2)) /\
  free_align 256 (fst r1) (free 4160 (snd r2))
    = Some (free 4096 (free 4160 (snd r2))) /\
  outstanding (trace (free 4160 (free 4096 (snd r2)))) = outstanding (trace zeroed) /\
  outstanding (trace (free 4096 (free 4160 (snd r2)))) = outstanding (trace zeroed).
Proof.
  apply (two_allocations_independent 64 bump_backing 256 10 8 100 16 zeroed);
    try lia; try by_evaluation.
  left. by_evaluation.
Defined.

(** A three-byte object with two extra bytes, aligned to 8. *)
Lemma INIT_EXTRA_ALIGN_object_witness :
  let obj := [1; 2; 3] in
  let n := 8 + 1 + (3 + 2) in
  exists this s',
    INIT_EXTRA_ALIGN 64 (fixed_backing 4096) obj 2 8 zeroed = Some (this, s') /\
    this mod 8 = 0 /\
    4096 < this /\ this + 3 + 2 < 4096 + n /\
    (forall i, (i < length obj)%nat ->
               load (mem s') (this + Z.of_nat i) = nth i obj 0) /\
    (forall x, this + 3 <= x < this + 3 + 2 -> load (mem s') x = 0) /\
    trace s' = trace zeroed ++ [EvMalloc n 4096] /\
    free_align 256 this s' = Some (free 4096 s').
Proof.
  apply (INIT_EXTRA_ALIGN_object 64 (fixed_backing 4096) 256 [1; 2; 3] 2 8 zeroed);
    [lia | repeat constructor; lia | lia | by_evaluation | by_evaluation].
Defined.

(** An object asked to be aligned to 256 bytes. *)
Lemma INIT_ALIGN_wide_alignment_witness :
  exists s',
    INIT_ALIGN 64 (fixed_backing 4096) [1; 2; 3] 256 zeroed = Some (4096 + 1, s') /\
    trace s' = trace zeroed ++ [EvMalloc (1 + 1 + 3) 4096].
Proof.
  apply (INIT_ALIGN_wide_alignment 64 (fixed_backing 4096) [1; 2; 3] 256 zeroed);
    by_evaluation.
Defined.

(** Size 13, alignment 8. *)
Lemma pad_len_least_witness :
  exists pad,
    pad_len 64 13 8 = Some pad /\
    0 <= pad < 8 /\
    (13 + pad) mod 8 = 0 /\
    (pad = 0 <-> 13 mod 8 = 0) /\
    (forall q, 0 <= q -> (13 + q) mod 8 = 0 -> pad <= q).
Proof. apply (pad_len_least 64 13 8); by_evaluation. Defined.

Lemma round_up_least_multiple_witness :
  exists r,
    round_up 64 13 8 = Some r /\
    r mod 8 = 0 /\ 13 <= r < 13 + 8 /\ r <= 24.
Proof. apply (round_up_least_multiple 64 13 8 24); by_evaluation. Defined.

(** The largest [size_t], alignment 16. *)
Lemma round_up_wraps_to_zero_witness :
  round_up 64 (2 ^ 64 - 1) 16 = Some 0.
Proof. apply (round_up_wraps_to_zero 64 (2 ^ 64 - 1) 16); by_evaluation. Defined.

Lemma round_down_greatest_multiple_witness :
  exists r,
    round_down 64 13 8 = Some r /\
    r mod 8 = 0 /\
    0 <= r <= 13 /\ 13 < r + 8 /\
    (forall m, m mod 8 = 0 -> m <= 13 -> m <= r).
Proof. apply (round_down_greatest_multiple 64 13 8); by_evaluation. Defined.

Lemma round_up_down_gap_witness :
  exists d u,
    round_down 64 13 8 = Some d /\
    round_up 64 13 8 = Some u /\
    round_down 64 d 8 = Some d /\
    (13 mod 8 = 0 -> d = 13 /\ u = 13) /\
    (13 mod 8 <> 0 -> d < 13 < d + 8 /\ u = (d + 8) mod 2 ^ 64) /\
    (13 mod 8 = 0 \/ d + 8 < 2 ^ 64 ->
       13 <= u < 13 + 8 /\ round_up 64 u 8 = Some u).
Proof. apply (round_up_down_gap 64 13 8); by_evaluation. Defined.

Lemma rounding_monotone_witness :
  exists d1 d2,
    round_down 64 13 8 = Some d1 /\
    round_down 64 (2 ^ 64 - 1) 8 = Some d2 /\
    d1 <= d2 /\
    (forall m, m mod 8 = 0 -> 2 ^ 64 - 1 <= m < 2 ^ 64 ->
       exists u1 u2,
         round_up 64 13 8 = Some u1 /\
         round_up 64 (2 ^ 64 - 1) 8 = Some u2 /\
         u1 <= u2 <= m).
Proof. apply (rounding_monotone 64 13 (2 ^ 64 - 1) 8); by_evaluation. Defined.

(** One and a half seconds added to 10.999999 s. *)
Lemma timeval_add_ms_normalised_witness :
  let tv := {| tv_sec := 10; tv_usec := 999999 |} in
  exists tv',
    timeval_add_ms 4296 tv 1500 = Ok tv' /\
    0 <= tv_usec tv' < 1000000 /\
    tv_sec tv <= tv_sec tv' <= tv_sec tv + 4295 /\
    micros tv' = micros tv + (1500 * 1000) mod 2 ^ UINT_BITS /\
    (1500 <= 4294967 -> micros tv' = micros tv + 1500 * 1000) /\
    (4294967 < 1500 -> micros tv' < micros tv + 1500 * 1000).
Proof.
  apply (timeval_add_ms_normalised 4296 {| tv_sec := 10; tv_usec := 999999 |} 1500);
    by_evaluation.
Defined.

(** One millisecond added to a microsecond field of -5000. *)
Lemma timeval_add_ms_keeps_negative_witness :
  let tv := {| tv_sec := 10; tv_usec := -5000 |} in
  timeval_add_ms 1 tv 1 =
    Ok {| tv_sec := tv_sec tv;
          tv_usec := tv_usec tv + (1 * 1000) mod 2 ^ UINT_BITS |}.
Proof.
  apply (timeval_add_ms_keeps_negative 1 {| tv_sec := 10; tv_usec := -5000 |} 1);
    by_evaluation.
Defined.

(** Two times 7200 seconds apart: 120 minutes, not 2 hours. *)
Lemma time_delta_args_unit_witness :
  let d := Z.abs (100 - 7300) in
  exists n unit ending,
    time_delta_args 100 7300 = Ok (n, unit, ending) /\
    (d <= 120 /\ unit = "second"%string /\ n = d \/
     120 < d <= 7200 /\ unit = "minute"%string /\ n = d / 60 \/
     7200 < d <= 172800 /\ unit = "hour"%string /\ n = d / 3600 \/
     172800 < d /\ unit = "day"%string /\ n = d / 86400) /\
    n * unit_seconds unit <= d < (n + 1) * unit_seconds unit /\
    (unit = "second"%string \/ 2 <= n) /\
    (ending = ""%string <-> d = 1) /\
    (ending = ""%string \/ ending = "s"%string).
Proof. apply (time_delta_args_unit 100 7300). by_evaluation. Defined.

(** A conversion that answers 9 January 1970, 03:04:07. *)
Lemma time_printf_hook_width_witness :
  let gmtime_r := fun _ : Z => Some (mkTm 7 4 3 9 0 70) in
  let localtime_r := fun _ : Z => @None tm in
  exists text,
    time_printf_hook gmtime_r localtime_r 702247 1 = Ok text /\
    String.length text = (if 1 =? 0 then 20%nat else 24%nat) /\
    (702247 = UNDEFINED_TIME ->
     text = if 1 =? 0 then "--- -- --:--:-- ----"%string
            else "--- -- --:--:-- UTC ----"%string).
Proof.
  apply (time_printf_hook_width
           (fun _ => Some (mkTm 7 4 3 9 0 70)) (fun _ => None) 702247 1).
  - intros t H. injection H as <-. reflexivity.
  - intros t H. discriminate H.
Defined.

(** The fallback loop from 250 with [sysconf] failing. *)
Lemma closefrom_never_below_witness :
  closefrom 4096 (fun _ => 7) 10 true None (-1) 300 250
    = Some [250; 251; 252; 253; 254; 255] /\
  250 <= 252.
Proof.
  split; [by_evaluation|].
  apply (closefrom_never_below 4096 (fun _ => 7) 10 true None (-1) 300 250
                               [250; 251; 252; 253; 254; 255]);
    [by_evaluation | do 2 right; left; reflexivity].
Defined.

Lemma closefrom_fallback_witness :
  let maxfd := if -1 <? 0 then 256 else -1 in
  exists closed,
    closefrom 4096 (fun _ => 7) 10 true None (-1) 300 250 = Some closed /\
    closed = count_up 250 (Z.to_nat (maxfd - 250)) /\
    (forall fd, In fd closed <-> 250 <= fd < maxfd) /\
    NoDup closed /\
    (maxfd <= 250 -> closed = []).
Proof.
  apply (closefrom_fallback 4096 (fun _ => 7) 10 true None (-1) 300 250);
    [now right | vm_compute; lia].
Defined.

(** 1.5 s and then 2.25 s added to 10.999999 s. *)
Lemma timeval_add_ms_composes_witness :
  let tv := {| tv_sec := 10; tv_usec := 999999 |} in
  exists tv1 tv2,
    timeval_add_ms 4296 tv 1500 = Ok tv1 /\
    timeval_add_ms 4296 tv1 2250 = Ok tv2 /\
    timeval_add_ms 4296 tv (1500 + 2250) = Ok tv2.
Proof.
  apply (timeval_add_ms_composes 4296 {| tv_sec := 10; tv_usec := 999999 |}
                                 1500 2250);
    by_evaluation.
Defined.
